(** * Huffman tree codec and stream compressor: util.py

    A shallow embedding of [read_tree], [decode_byte], [decompress],
    [write_tree] and [compress] from [util.py], together with models of the
    two modules the file imports ([bitio] and [huffman]). *)

From Stdlib Require Import ZArith List Lia.
From Stdlib.Strings Require Import Byte.
From stdpp Require Import base option list gmap.
Import ListNotations.

Local Open Scope Z_scope.

(** ** Exceptions and outcomes

    Python calls either return a value or raise.  The recursive reader and
    the [while True] loops are defined with a fuel argument, so running out
    of fuel is a third outcome; the totality lemmas below show it never
    happens for the entry points.  [RecursionError] is what the interpreter
    raises when a call would exceed its recursion limit; only the functions
    that count frames ([read_tree_frames] and its callers) raise it. *)

Inductive exn : Type :=
| EOFError
| KeyError (key : Z)
| RecursionError.

Inductive outcome (A : Type) : Type :=
| Ok (a : A)
| Raise (e : exn)
| OutOfFuel.

Arguments Ok {A} a.
Arguments Raise {A} e.
Arguments OutOfFuel {A}.

#[global] Instance outcome_ret : MRet outcome := fun A a => Ok a.
#[global] Instance outcome_bind : MBind outcome := fun A B k m =>
  match m with
  | Ok a => k a
  | Raise e => Raise e
  | OutOfFuel => OutOfFuel
  end.
#[global] Instance outcome_fmap : FMap outcome := fun A B f m =>
  match m with
  | Ok a => Ok (f a)
  | Raise e => Raise e
  | OutOfFuel => OutOfFuel
  end.

(** ** bitio: bit-granular reader and writer over byte streams *)

Module bitio.

(** Modelled from the spec: the module [bitio] is imported by util.py but is
    not part of the sources.  The spec gives its interface ([readbit],
    [readbits], [writebit], [writebits], [flush] over a byte stream, an
    end-of-data signal on exhaustion, zero padding of the final partial
    byte on flush) and asks for one fixed bit order; most significant bit
    first is used here. *)
Definition byte_bits (a : byte) : list bool :=
  let '(b0, (b1, (b2, (b3, (b4, (b5, (b6, b7))))))) := Byte.to_bits a in
  [b7; b6; b5; b4; b3; b2; b1; b0].

(** Modelled from the spec: the byte made of eight bits, most significant
    first (the inverse of [byte_bits]); [x00] for any other length. *)
Definition bits_byte (l : list bool) : byte :=
  match l with
  | [b7; b6; b5; b4; b3; b2; b1; b0] =>
      Byte.of_bits (b0, (b1, (b2, (b3, (b4, (b5, (b6, b7)))))))
  | _ => x00
  end.

(** Modelled from the spec: a reader holds the bytes not yet fetched from
    the underlying stream and the bits of the current byte not yet
    delivered. *)
Record BitReader : Type := mkBitReader {
  r_input : list byte;
  r_bits : list bool
}.

(** Modelled from the spec: [bitio.BitReader(stream)]. *)
Definition new_reader (input : list byte) : BitReader :=
  {| r_input := input; r_bits := [] |}.

(** Modelled from the spec: [readbit() -> 0|1], failing with the end-of-data
    signal when the stream is exhausted. *)
Definition readbit (r : BitReader) : outcome (bool * BitReader) :=
  match r_bits r with
  | b :: bits => Ok (b, {| r_input := r_input r; r_bits := bits |})
  | [] =>
      match r_input r with
      | [] => Raise EOFError
      | a :: rest =>
          match byte_bits a with
          | b :: bits => Ok (b, {| r_input := rest; r_bits := bits |})
          | [] => Raise EOFError
          end
      end
  end.

(** Modelled from the spec: [readbits(n) -> unsigned n-bit value], the bits
    read one at a time and shifted in from the right; same failure mode. *)
Fixpoint readbits_acc (n : nat) (v : Z) (r : BitReader) : outcome (Z * BitReader) :=
  match n with
  | O => Ok (v, r)
  | S n' =>
      '(b, r') ← readbit r;
      readbits_acc n' (Z.lor (Z.shiftl v 1) (Z.b2z b)) r'
  end.

Definition readbits (n : nat) (r : BitReader) : outcome (Z * BitReader) :=
  readbits_acc n 0 r.

(** Modelled from the spec: a writer holds the bytes already handed to the
    underlying stream and the bits of the partial byte; [w_flushes] counts
    the calls of [flush] (a ghost field, the stream never sees it). *)
Record BitWriter : Type := mkBitWriter {
  w_output : list byte;
  w_bits : list bool;
  w_flushes : nat
}.

(** Modelled from the spec: [bitio.BitWriter(stream)] on an empty stream. *)
Definition new_writer : BitWriter :=
  {| w_output := []; w_bits := []; w_flushes := O |}.

(** Modelled from the spec: [writebit(bit)]; a byte is handed to the stream
    as soon as its eight bits are there. *)
Definition writebit (bit : bool) (w : BitWriter) : BitWriter :=
  let bits := w_bits w ++ [bit] in
  if (length bits =? 8)%nat
  then {| w_output := w_output w ++ [bits_byte bits]; w_bits := [];
          w_flushes := w_flushes w |}
  else {| w_output := w_output w; w_bits := bits; w_flushes := w_flushes w |}.

(** Modelled from the spec: [writebits(value, n)], the [n] low bits of
    [value], most significant first. *)
Fixpoint writebits (value : Z) (n : nat) (w : BitWriter) : BitWriter :=
  match n with
  | O => w
  | S n' => writebits value n' (writebit (Z.testbit value (Z.of_nat n')) w)
  end.

(** Modelled from the spec: [flush()] pads the final partial byte with 0
    bits and hands it to the stream; nothing is written when no bit is
    pending. *)
Definition flush (w : BitWriter) : BitWriter :=
  match w_bits w with
  | [] => {| w_output := w_output w; w_bits := []; w_flushes := S (w_flushes w) |}
  | bits =>
      {| w_output := w_output w ++ [bits_byte (bits ++ repeat false (8 - length bits))];
         w_bits := []; w_flushes := S (w_flushes w) |}
  end.

(** The bits a stream of bytes stands for. *)
Definition stream_bits (bs : list byte) : list bool :=
  concat (map byte_bits bs).

(** The bits a reader has still to deliver. *)
Definition pending (r : BitReader) : list bool :=
  r_bits r ++ stream_bits (r_input r).

(** The bits written so far, the partial byte included. *)
Definition written (w : BitWriter) : list bool :=
  stream_bits (w_output w) ++ w_bits w.

End bitio.

Import bitio.

(** ** huffman: the tree model and the encoding table *)

Module huffman.

(** Modelled from the spec: the classes [huffman.TreeLeaf] (with field
    [value], [None] for the end of message) and [huffman.TreeBranch] (with
    fields [left] and [right]) are not part of the sources. *)
Inductive tree : Type :=
| TreeLeaf (value : option Z)
| TreeBranch (left right : tree).

(** Modelled from the spec: [huffman.make_encoding_table] is not part of the
    sources.  The table maps each concrete symbol to the left(0)/right(1)
    path from the root to its leaf; the end-marker leaf gets no entry. *)
Fixpoint table_from (t : tree) (path : list bool) (table : gmap Z (list bool))
  : gmap Z (list bool) :=
  match t with
  | TreeLeaf None => table
  | TreeLeaf (Some s) => <[s := path]> table
  | TreeBranch l r =>
      table_from r (path ++ [true]) (table_from l (path ++ [false]) table)
  end.

Definition make_encoding_table (t : tree) : gmap Z (list bool) :=
  table_from t [] ∅.

End huffman.

Import huffman.

(** ** util.py *)

(** [read_tree(bitreader)]: the recursion is on the stream, so it is given
    fuel; [read_tree] supplies one more than the number of pending bits.
    This is the function when the interpreter never runs out of frames;
    [read_tree_frames] below counts them. *)
Fixpoint read_tree_fuel (fuel : nat) (bitreader : BitReader)
  : outcome (tree * BitReader) :=
  match fuel with
  | O => OutOfFuel
  | S fuel' =>
      '(first_bit, r1) ← readbit bitreader;
      if first_bit : bool then
        '(leftsub, r2) ← read_tree_fuel fuel' r1;
        '(rightsub, r3) ← read_tree_fuel fuel' r2;
        Ok (TreeBranch leftsub rightsub, r3)
      else
        '(second_bit, r2) ← readbit r1;
        if second_bit : bool then
          '(value, r3) ← readbits 8 r2;
          Ok (TreeLeaf (Some value), r3)
        else
          Ok (TreeLeaf None, r2)
  end.

Definition read_tree (bitreader : BitReader) : outcome (tree * BitReader) :=
  read_tree_fuel (S (length (pending bitreader))) bitreader.

(** [decode_byte(tree, bitreader)]: the [while] loop descends one node per
    round, so it is structural on the node.  [EOFError], the only
    exception [readbit] raises, is caught and breaks out of the loop;
    leaving the loop without [return] yields [None]. *)
Fixpoint decode_byte (node : tree) (bitreader : BitReader)
  : option Z * BitReader :=
  match node with
  | TreeLeaf _ => (None, bitreader)
  | TreeBranch node_left node_right =>
      match readbit bitreader with
      | Ok (bit, r') =>
          let node' := if bit : bool then node_right else node_left in
          match node' with
          | TreeLeaf value => (value, r')
          | TreeBranch _ _ => decode_byte node' r'
          end
      | _ => (None, bitreader)
      end
  end.

(** [decompress(compressed, uncompressed)]: the decode loop, with fuel for
    the [while True]; it ends when [decode_byte] yields [None]. *)
Fixpoint decompress_loop (fuel : nat) (tree : tree) (reading : BitReader)
    (Target : BitWriter) : outcome BitWriter :=
  match fuel with
  | O => OutOfFuel
  | S fuel' =>
      let '(val, reading') := decode_byte tree reading in
      match val with
      | None => Ok Target
      | Some v => decompress_loop fuel' tree reading' (writebits v 8 Target)
      end
  end.

(** The writer [Target] when [decompress] returns. *)
Definition decompress_run (compressed : list byte) : outcome BitWriter :=
  let reading := new_reader compressed in
  '(tree, reading') ← read_tree reading;
  Target ← decompress_loop (S (length (pending reading'))) tree reading' new_writer;
  Ok (flush Target).

(** The bytes [decompress] leaves in the stream [uncompressed]. *)
Definition decompress (compressed : list byte) : outcome (list byte) :=
  w_output <$> decompress_run compressed.

(** [bitreader.readbit()] when [frames] more calls may be open: the call
    takes one frame. *)
Definition readbit_frames (frames : nat) (r : BitReader)
  : outcome (bool * BitReader) :=
  match frames with
  | O => Raise RecursionError
  | S _ => readbit r
  end.

(** [bitreader.readbits(n)] when [frames] more calls may be open: the call
    takes one frame and, when there is a bit to read, its call of [readbit]
    one more. *)
Definition readbits_frames (frames : nat) (n : nat) (r : BitReader)
  : outcome (Z * BitReader) :=
  match frames with
  | O => Raise RecursionError
  | S inner =>
      match n, inner with
      | S _, O => Raise RecursionError
      | _, _ => readbits n r
      end
  end.

(** [read_tree(bitreader)] under the recursion limit of the interpreter:
    [frames] is the number of calls that may still be open, this one
    included.  Each nested call of [read_tree] takes one frame, so that the
    recursion is structural in [frames].  [read_tree] above is the same
    function when the frames never run out. *)
Fixpoint read_tree_frames (frames : nat) (bitreader : BitReader)
  : outcome (tree * BitReader) :=
  match frames with
  | O => Raise RecursionError
  | S inner =>
      '(first_bit, r1) ← readbit_frames inner bitreader;
      if first_bit : bool then
        '(leftsub, r2) ← read_tree_frames inner r1;
        '(rightsub, r3) ← read_tree_frames inner r2;
        Ok (TreeBranch leftsub rightsub, r3)
      else
        '(second_bit, r2) ← readbit_frames inner r1;
        if second_bit : bool then
          '(value, r3) ← readbits_frames inner 8 r2;
          Ok (TreeLeaf (Some value), r3)
        else
          Ok (TreeLeaf None, r2)
  end.

(** [decompress] when [limit] frames are left for its call of [read_tree].
    The other calls of [decompress] nest at most three deep below it
    ([writebits], [writebit] and what it calls), which fits whenever
    [read_tree] has returned a tree that has a symbol to write; only
    [read_tree] nests without bound. *)
Definition decompress_run_frames (limit : nat) (compressed : list byte)
  : outcome BitWriter :=
  let reading := new_reader compressed in
  '(tree, reading') ← read_tree_frames limit reading;
  Target ← decompress_loop (S (length (pending reading'))) tree reading' new_writer;
  Ok (flush Target).

Definition decompress_frames (limit : nat) (compressed : list byte)
  : outcome (list byte) :=
  w_output <$> decompress_run_frames limit compressed.

(** [write_tree(tree, bitwriter)]. *)
Fixpoint write_tree (tree : tree) (bitwriter : BitWriter) : BitWriter :=
  match tree with
  | TreeBranch node_left node_right =>
      write_tree node_right (write_tree node_left (writebit true bitwriter))
  | TreeLeaf None => writebit false (writebit false bitwriter)
  | TreeLeaf (Some value) =>
      writebits value 8 (writebit true (writebit false bitwriter))
  end.

(** [for v in value: Target.writebit(v)]. *)
Definition write_code (value : list bool) (Target : BitWriter) : BitWriter :=
  fold_left (fun w v => writebit v w) value Target.

(** The encode loop of [compress], with fuel for the [while True]: one round
    per byte of the input; [EOFError] from [readbits] ends it after the two
    0 bits are written, a missing table entry raises [KeyError]. *)
Fixpoint compress_loop (fuel : nat) (encode : gmap Z (list bool))
    (readingfile : BitReader) (Target : BitWriter) : outcome BitWriter :=
  match fuel with
  | O => OutOfFuel
  | S fuel' =>
      match readbits 8 readingfile with
      | Raise EOFError => Ok (writebit false (writebit false Target))
      | Raise e => Raise e
      | OutOfFuel => OutOfFuel
      | Ok (reading, readingfile') =>
          match encode !! reading with
          | None => Raise (KeyError reading)
          | Some value =>
              compress_loop fuel' encode readingfile' (write_code value Target)
          end
      end
  end.

(** The writer [Target] when [compress] returns. *)
Definition compress_run (tree : tree) (uncompressed : list byte)
  : outcome BitWriter :=
  let Target := new_writer in
  let readingfile := new_reader uncompressed in
  let Target := write_tree tree Target in
  let encode := make_encoding_table tree in
  Target ← compress_loop (S (length uncompressed)) encode readingfile Target;
  Ok (flush Target).

(** The bytes [compress] leaves in the stream [compressed]. *)
Definition compress (tree : tree) (uncompressed : list byte)
  : outcome (list byte) :=
  w_output <$> compress_run tree uncompressed.

(** ** The wire format, as the spec words it *)

(** The bits of [value], [n] of them, most significant first. *)
Fixpoint value_bits (value : Z) (n : nat) : list bool :=
  match n with
  | O => []
  | S n' => Z.testbit value (Z.of_nat n') :: value_bits value n'
  end.

(** The grammar of a tree description: [1 left right] for a branch, [0 0]
    for the end-marker leaf, [0 1] and eight symbol bits for a symbol leaf. *)
Fixpoint tree_bits (t : tree) : list bool :=
  match t with
  | TreeBranch l r => true :: tree_bits l ++ tree_bits r
  | TreeLeaf None => [false; false]
  | TreeLeaf (Some s) => false :: true :: value_bits s 8
  end.

(** Data-model invariant: every symbol at a leaf is a byte value. *)
Fixpoint well_formed (t : tree) : Prop :=
  match t with
  | TreeBranch l r => well_formed l ∧ well_formed r
  | TreeLeaf None => True
  | TreeLeaf (Some s) => 0 <= s < 256
  end.

(** The symbol of a byte read from a file. *)
Definition byte_value (b : byte) : Z := Z.of_N (Byte.to_N b).

(** The payload of a compressed stream: the codes of the input bytes, in
    order; [None] when some byte has no code. *)
Fixpoint payload (encode : gmap Z (list bool)) (input : list byte)
  : option (list bool) :=
  match input with
  | [] => Some []
  | b :: rest =>
      code ← encode !! byte_value b;
      bits ← payload encode rest;
      Some (code ++ bits)
  end.

(** The zero bits that complete [n] bits to a byte boundary. *)
Definition padding (n : nat) : list bool :=
  repeat false ((8 - n mod 8) mod 8)%nat.

(** ** Auxiliary definitions for the proofs *)

(** The value [readbits] builds from a list of bits. *)
Definition bits_value (v : Z) (bits : list bool) : Z :=
  fold_left (fun acc b => Z.lor (Z.shiftl acc 1) (Z.b2z b)) bits v.

(** Fewer than eight bits wait in the partial byte. *)
Definition writer_ok (w : BitWriter) : Prop := (length (w_bits w) < 8)%nat.

(** The number of nested calls [read_tree] needs below the root. *)
Fixpoint height (t : tree) : nat :=
  match t with
  | TreeLeaf _ => O
  | TreeBranch l r => S (Nat.max (height l) (height r))
  end.

(** The bits end while the descent from [node] is still at a branch. *)
Fixpoint runs_out (node : tree) (bits : list bool) : bool :=
  match node with
  | TreeLeaf _ => false
  | TreeBranch l r =>
      match bits with
      | [] => true
      | b :: bs => runs_out (if b then r else l) bs
      end
  end.

(** The node reached from [t] along [path] (0 left, 1 right). *)
Fixpoint follow (t : tree) (path : list bool) : option tree :=
  match path with
  | [] => Some t
  | b :: p =>
      match t with
      | TreeLeaf _ => None
      | TreeBranch l r => follow (if b : bool then r else l) p
      end
  end.

(** The value at the leftmost leaf, the one reached by 0 bits only. *)
Fixpoint leftmost (t : tree) : option Z :=
  match t with
  | TreeLeaf value => value
  | TreeBranch l _ => leftmost l
  end.

(** [Target.writebits(val, 8)] for each byte of a list. *)
Definition write_bytes (bs : list byte) (Target : BitWriter) : BitWriter :=
  fold_left (fun w b => writebits (byte_value b) 8 w) bs Target.

(** The byte [Target.writebits(val, 8)] hands to the stream. *)
Definition symbol_byte (val : Z) : byte := bits_byte (value_bits val 8).

(** The number of leaves of a tree, and of those that hold a symbol. *)
Fixpoint leaves (t : tree) : nat :=
  match t with
  | TreeLeaf _ => 1
  | TreeBranch l r => leaves l + leaves r
  end.

Fixpoint symbol_leaves (t : tree) : nat :=
  match t with
  | TreeLeaf None => 0
  | TreeLeaf (Some _) => 1
  | TreeBranch l r => symbol_leaves l + symbol_leaves r
  end.

(** A reader in the middle of a byte, with just these bits left. *)
Definition reader_of_bits (bits : list bool) : BitReader :=
  {| r_input := []; r_bits := bits |}.

(** ** Sample trees and streams *)

(** Symbol [65] on the left (code [0]), the end marker on the right
    (code [1]). *)
Definition tree_sym_eof : tree :=
  TreeBranch (TreeLeaf (Some 65)) (TreeLeaf None).

(** The end marker on the left (code [0]), symbol [65] on the right
    (code [1]). *)
Definition tree_eof_sym : tree :=
  TreeBranch (TreeLeaf None) (TreeLeaf (Some 65)).

(** A tree of height two: codes [00] for [65], [01] for the end marker and
    [1] for [66]. *)
Definition tree_deep : tree :=
  TreeBranch (TreeBranch (TreeLeaf (Some 65)) (TreeLeaf None)) (TreeLeaf (Some 66)).

(** ** Tactics *)

Ltac outcome_simpl :=
  cbn [mbind outcome_bind fmap outcome_fmap mret outcome_ret].

Tactic Notation "outcome_simpl" "in" hyp(H) :=
  cbn [mbind outcome_bind fmap outcome_fmap mret outcome_ret] in H.

(** ** Bytes and bits *)

Section ByteBits.

Lemma byte_bits_length (a : byte) : length (byte_bits a) = 8%nat.
Proof.
  unfold byte_bits.
  destruct (Byte.to_bits a) as (b0 & b1 & b2 & b3 & b4 & b5 & b6 & b7).
  reflexivity.
Qed.

Lemma bits_byte_bits (a : byte) : bits_byte (byte_bits a) = a.
Proof.
  unfold byte_bits.
  destruct (Byte.to_bits a) as (b0 & b1 & b2 & b3 & b4 & b5 & b6 & b7) eqn:E.
  transitivity (Byte.of_bits (Byte.to_bits a)).
  - rewrite E. reflexivity.
  - apply Byte.of_bits_to_bits.
Qed.

Lemma byte_bits_byte (l : list bool) :
  length l = 8%nat → byte_bits (bits_byte l) = l.
Proof.
  intros H.
  do 8 (destruct l as [|? l]; [discriminate H|]).
  destruct l; [|discriminate H].
  unfold bits_byte, byte_bits. rewrite Byte.to_bits_of_bits. reflexivity.
Qed.

Lemma stream_bits_app (xs ys : list byte) :
  stream_bits (xs ++ ys) = stream_bits xs ++ stream_bits ys.
Proof. unfold stream_bits. rewrite map_app. apply concat_app. Qed.

Lemma stream_bits_cons (a : byte) (bs : list byte) :
  stream_bits (a :: bs) = byte_bits a ++ stream_bits bs.
Proof. reflexivity. Qed.

Lemma stream_bits_length (bs : list byte) :
  length (stream_bits bs) = (8 * length bs)%nat.
Proof.
  induction bs as [|a bs IH]; [reflexivity|].
  rewrite stream_bits_cons, length_app, byte_bits_length, IH. cbn [length]. lia.
Qed.

End ByteBits.

(** ** The reader, seen as a list of pending bits *)

Section Reader.

Lemma readbit_nil (r : BitReader) :
  pending r = [] → readbit r = Raise EOFError.
Proof.
  destruct r as [inp bits]. unfold pending, readbit. cbn [r_bits r_input].
  destruct bits as [|b bits]; [|discriminate].
  destruct inp as [|a inp]; [reflexivity|].
  intros H. apply (f_equal (@length bool)) in H.
  rewrite stream_bits_cons, !length_app, byte_bits_length in H. discriminate H.
Qed.

Lemma readbit_cons (r : BitReader) (b : bool) (bs : list bool) :
  pending r = b :: bs → ∃ r', readbit r = Ok (b, r') ∧ pending r' = bs.
Proof.
  destruct r as [inp bits]. unfold pending, readbit. cbn [r_bits r_input].
  destruct bits as [|b0 bits].
  - destruct inp as [|a inp]; [discriminate|].
    rewrite stream_bits_cons.
    pose proof (byte_bits_length a) as Hl.
    destruct (byte_bits a) as [|b1 bits1]; [discriminate Hl|].
    intros [= -> <-]. eexists. split; reflexivity.
  - intros [= -> <-]. eexists. split; reflexivity.
Qed.

Lemma readbit_Ok (r r' : BitReader) (b : bool) :
  readbit r = Ok (b, r') → pending r = b :: pending r'.
Proof.
  intros H. destruct (pending r) as [|b0 bs] eqn:E.
  - rewrite (readbit_nil r E) in H. discriminate H.
  - destruct (readbit_cons r b0 bs E) as (r0 & H0 & Hp).
    rewrite H0 in H. injection H as -> ->. rewrite Hp. reflexivity.
Qed.

Lemma readbit_Raise (r : BitReader) (e : exn) :
  readbit r = Raise e → e = EOFError ∧ pending r = [].
Proof.
  intros H. destruct (pending r) as [|b0 bs] eqn:E.
  - rewrite (readbit_nil r E) in H. injection H as <-. split; reflexivity.
  - destruct (readbit_cons r b0 bs E) as (r0 & H0 & Hp).
    rewrite H0 in H. discriminate H.
Qed.

Lemma readbit_fuel (r : BitReader) : readbit r ≠ OutOfFuel.
Proof.
  destruct (pending r) as [|b0 bs] eqn:E.
  - rewrite (readbit_nil r E). discriminate.
  - destruct (readbit_cons r b0 bs E) as (r0 & H0 & Hp). rewrite H0. discriminate.
Qed.


Lemma readbits_acc_app (n : nat) (v : Z) (r : BitReader) (bits rest : list bool) :
  length bits = n → pending r = bits ++ rest →
  ∃ r', readbits_acc n v r = Ok (bits_value v bits, r') ∧ pending r' = rest.
Proof.
  revert v r bits. induction n as [|n IH]; intros v r bits Hl Hp.
  - destruct bits; [|discriminate Hl]. exists r. split; [reflexivity|exact Hp].
  - destruct bits as [|b bits]; [discriminate Hl|].
    injection Hl as Hl. cbn in Hp.
    destruct (readbit_cons r b (bits ++ rest) Hp) as (r1 & H1 & Hp1).
    cbn [readbits_acc]. rewrite H1. cbn.
    apply (IH _ r1 bits Hl Hp1).
Qed.

Lemma readbits_acc_short (n : nat) (v : Z) (r : BitReader) :
  (length (pending r) < n)%nat → readbits_acc n v r = Raise EOFError.
Proof.
  revert v r. induction n as [|n IH]; intros v r Hl; [lia|].
  cbn [readbits_acc]. destruct (pending r) as [|b bs] eqn:E.
  - rewrite (readbit_nil r E). reflexivity.
  - destruct (readbit_cons r b bs E) as (r1 & H1 & Hp1).
    rewrite H1. cbn. apply IH. rewrite Hp1. cbn in Hl. lia.
Qed.

Lemma readbits_acc_Ok (n : nat) (v x : Z) (r r' : BitReader) :
  readbits_acc n v r = Ok (x, r') →
  ∃ bits, length bits = n ∧ pending r = bits ++ pending r' ∧ x = bits_value v bits.
Proof.
  intros H.
  destruct (Nat.lt_ge_cases (length (pending r)) n) as [Hlt|Hge].
  - rewrite (readbits_acc_short n v r Hlt) in H. discriminate H.
  - destruct (readbits_acc_app n v r (firstn n (pending r)) (skipn n (pending r)))
      as (r1 & H1 & Hp1).
    + rewrite length_firstn. lia.
    + symmetry. apply firstn_skipn.
    + rewrite H1 in H. injection H as <- <-.
      exists (firstn n (pending r)). rewrite Hp1, firstn_skipn.
      split; [rewrite length_firstn; lia|]. split; reflexivity.
Qed.

Lemma readbits_acc_Raise (n : nat) (v : Z) (r : BitReader) (e : exn) :
  readbits_acc n v r = Raise e → e = EOFError ∧ (length (pending r) < n)%nat.
Proof.
  intros H.
  destruct (Nat.lt_ge_cases (length (pending r)) n) as [Hlt|Hge].
  - rewrite (readbits_acc_short n v r Hlt) in H. injection H as <-. split; [reflexivity|lia].
  - destruct (readbits_acc_app n v r (firstn n (pending r)) (skipn n (pending r)))
      as (r1 & H1 & Hp1).
    + rewrite length_firstn. lia.
    + symmetry. apply firstn_skipn.
    + rewrite H1 in H. discriminate H.
Qed.

Lemma readbits_acc_fuel (n : nat) (v : Z) (r : BitReader) :
  readbits_acc n v r ≠ OutOfFuel.
Proof.
  destruct (Nat.lt_ge_cases (length (pending r)) n) as [Hlt|Hge].
  - rewrite (readbits_acc_short n v r Hlt). discriminate.
  - destruct (readbits_acc_app n v r (firstn n (pending r)) (skipn n (pending r)))
      as (r1 & H1 & Hp1).
    + rewrite length_firstn. lia.
    + symmetry. apply firstn_skipn.
    + rewrite H1. discriminate.
Qed.

End Reader.

(** ** Multi-bit values *)

Section Values.

Lemma shift_in (v : Z) (b : bool) :
  Z.lor (Z.shiftl v 1) (Z.b2z b) = 2 * v + Z.b2z b.
Proof.
  rewrite Z.shiftl_mul_pow2 by lia. change (2 ^ 1) with 2.
  destruct b; cbn [Z.b2z]; [|rewrite Z.lor_0_r; lia].
  transitivity (Z.lor (2 * v + Z.b2z false) (2 * 0 + Z.b2z true)).
  { f_equal. cbn [Z.b2z]. lia. }
  change (2 * v + 1) with (2 * v + Z.b2z true).
  apply Z.bits_inj'. intros n Hn. rewrite Z.lor_spec.
  destruct (Z.eq_dec n 0) as [->|Hne].
  - rewrite !Z.testbit_0_r. reflexivity.
  - replace n with (Z.succ (n - 1)) by lia.
    rewrite !Z.testbit_succ_r by lia.
    rewrite Z.testbit_0_l. apply orb_false_r.
Qed.

Lemma mod_pow2_succ (s n : Z) :
  0 <= n →
  s mod 2 ^ (Z.succ n) = Z.b2z (Z.testbit s n) * 2 ^ n + s mod 2 ^ n.
Proof.
  intros Hn. rewrite Z.pow_succ_r by lia. rewrite (Z.mul_comm 2).
  rewrite Z.rem_mul_r by lia. rewrite Z.testbit_spec' by lia. lia.
Qed.

Lemma value_bits_length (s : Z) (n : nat) : length (value_bits s n) = n.
Proof. induction n as [|n IH]; cbn; [reflexivity|now rewrite IH]. Qed.

(** Reading back the [n] bits written for [s] shifts them into the
    accumulator: the result is [s] modulo [2 ^ n]. *)
Lemma bits_value_value_bits (n : nat) (v s : Z) :
  bits_value v (value_bits s n) = v * 2 ^ Z.of_nat n + s mod 2 ^ Z.of_nat n.
Proof.
  revert v. induction n as [|n IH]; intros v.
  - cbn. rewrite Z.mod_1_r. lia.
  - cbn [value_bits]. unfold bits_value in *. cbn [fold_left].
    rewrite IH, shift_in, Nat2Z.inj_succ.
    rewrite (mod_pow2_succ s (Z.of_nat n)) by lia.
    rewrite Z.pow_succ_r by lia. lia.
Qed.

Lemma bits_value_byte (s : Z) :
  0 <= s < 256 → bits_value 0 (value_bits s 8) = s.
Proof.
  intros Hs. rewrite bits_value_value_bits.
  change (2 ^ Z.of_nat 8) with 256. rewrite Z.mod_small by lia. lia.
Qed.

Lemma bits_value_range (bits : list bool) :
  0 <= bits_value 0 bits < 2 ^ Z.of_nat (length bits).
Proof.
  assert (G : ∀ v, 0 <= v →
    0 <= bits_value v bits < (v + 1) * 2 ^ Z.of_nat (length bits)).
  { induction bits as [|b bits IH]; intros v Hv.
    - cbn. lia.
    - unfold bits_value in *. cbn [fold_left length].
      rewrite shift_in, Nat2Z.inj_succ, Z.pow_succ_r by lia.
      specialize (IH (2 * v + Z.b2z b)).
      assert (0 <= Z.b2z b <= 1) by (destruct b; cbn; lia).
      assert (0 < 2 ^ Z.of_nat (length bits)) by (apply Z.pow_pos_nonneg; lia).
      split; [apply IH; lia|].
      eapply Z.lt_le_trans; [apply IH; lia|]. nia. }
  specialize (G 0). rewrite Z.mul_1_l in G. apply G. lia.
Qed.

(** A byte of a file, read with [readbits(8)], is its own value. *)
Lemma bits_value_byte_bits (b : byte) :
  bits_value 0 (byte_bits b) = byte_value b.
Proof. destruct b; reflexivity. Qed.

(** A symbol written with [writebits(value, 8)] makes the byte of that
    value. *)
Lemma bits_byte_value_bits (b : byte) :
  bits_byte (value_bits (byte_value b) 8) = b.
Proof. destruct b; reflexivity. Qed.

Lemma byte_value_range (b : byte) : 0 <= byte_value b < 256.
Proof.
  unfold byte_value. pose proof (Byte.to_N_bounded b). lia.
Qed.

End Values.

(** ** The writer, seen as the list of bits written *)

Section Writer.


Lemma new_writer_ok : writer_ok new_writer.
Proof. unfold writer_ok. cbn. lia. Qed.

Lemma writebit_written (b : bool) (w : BitWriter) :
  written (writebit b w) = written w ++ [b].
Proof.
  unfold written, writebit.
  destruct (length (w_bits w ++ [b]) =? 8)%nat eqn:E; cbn [w_output w_bits].
  - apply Nat.eqb_eq in E.
    rewrite stream_bits_app. unfold stream_bits at 2. cbn [map concat].
    rewrite byte_bits_byte by exact E.
    rewrite !app_nil_r, app_assoc. reflexivity.
  - rewrite app_assoc. reflexivity.
Qed.

Lemma writebit_flushes (b : bool) (w : BitWriter) :
  w_flushes (writebit b w) = w_flushes w.
Proof. unfold writebit. destruct (_ =? _)%nat; reflexivity. Qed.

Lemma writebit_ok (b : bool) (w : BitWriter) :
  writer_ok w → writer_ok (writebit b w).
Proof.
  unfold writer_ok, writebit. intros H.
  destruct (length (w_bits w ++ [b]) =? 8)%nat eqn:E; cbn [w_bits].
  - cbn. lia.
  - apply Nat.eqb_neq in E. rewrite length_app in *. cbn [length] in *. lia.
Qed.

Lemma writebits_written (value : Z) (n : nat) (w : BitWriter) :
  written (writebits value n w) = written w ++ value_bits value n.
Proof.
  revert w. induction n as [|n IH]; intros w; cbn [writebits value_bits].
  - now rewrite app_nil_r.
  - rewrite IH, writebit_written, <- app_assoc. reflexivity.
Qed.

Lemma writebits_flushes (value : Z) (n : nat) (w : BitWriter) :
  w_flushes (writebits value n w) = w_flushes w.
Proof.
  revert w. induction n as [|n IH]; intros w; cbn [writebits]; [reflexivity|].
  now rewrite IH, writebit_flushes.
Qed.

Lemma writebits_ok (value : Z) (n : nat) (w : BitWriter) :
  writer_ok w → writer_ok (writebits value n w).
Proof.
  revert w. induction n as [|n IH]; intros w H; cbn [writebits]; [exact H|].
  apply IH, writebit_ok, H.
Qed.

Lemma write_code_written (value : list bool) (w : BitWriter) :
  written (write_code value w) = written w ++ value.
Proof.
  unfold write_code. revert w.
  induction value as [|v value IH]; intros w; cbn [fold_left].
  - now rewrite app_nil_r.
  - rewrite IH, writebit_written, <- app_assoc. reflexivity.
Qed.

Lemma write_code_flushes (value : list bool) (w : BitWriter) :
  w_flushes (write_code value w) = w_flushes w.
Proof.
  unfold write_code. revert w.
  induction value as [|v value IH]; intros w; cbn [fold_left]; [reflexivity|].
  now rewrite IH, writebit_flushes.
Qed.

Lemma write_code_ok (value : list bool) (w : BitWriter) :
  writer_ok w → writer_ok (write_code value w).
Proof.
  unfold write_code. revert w.
  induction value as [|v value IH]; intros w H; cbn [fold_left]; [exact H|].
  apply IH, writebit_ok, H.
Qed.

Lemma flush_flushes (w : BitWriter) : w_flushes (flush w) = S (w_flushes w).
Proof. unfold flush. destruct (w_bits w); reflexivity. Qed.

Lemma flush_bits (w : BitWriter) : w_bits (flush w) = [].
Proof. unfold flush. destruct (w_bits w); reflexivity. Qed.

Lemma written_length (w : BitWriter) :
  length (written w) = (8 * length (w_output w) + length (w_bits w))%nat.
Proof. unfold written. now rewrite length_app, stream_bits_length. Qed.

(** What the stream holds after [flush]: every bit written, then the zero
    bits that complete the last byte. *)
Lemma flush_output (w : BitWriter) :
  writer_ok w →
  stream_bits (w_output (flush w)) = written w ++ padding (length (written w)).
Proof.
  unfold writer_ok. intros H.
  assert (Hm : (length (written w) mod 8 = length (w_bits w))%nat).
  { rewrite written_length, Nat.add_comm, Nat.mul_comm, Nat.Div0.mod_add.
    apply Nat.mod_small, H. }
  unfold padding. rewrite Hm. unfold written, flush.
  destruct (w_bits w) as [|b bits] eqn:E; cbn [w_output]; rewrite ?E in H.
  - cbn. now rewrite !app_nil_r.
  - rewrite stream_bits_app. unfold stream_bits at 2. cbn [map concat].
    rewrite byte_bits_byte.
    + rewrite app_nil_r, <- app_assoc. do 2 f_equal. f_equal.
      cbn [length] in *. rewrite Nat.mod_small; lia.
    + rewrite length_app, repeat_length. lia.
Qed.

End Writer.

(** ** The tree codec *)


Section TreeCodec.

Lemma write_tree_written (t : tree) (w : BitWriter) :
  written (write_tree t w) = written w ++ tree_bits t.
Proof.
  revert w. induction t as [[s|]|l IHl r IHr]; intros w; cbn [write_tree tree_bits].
  - rewrite writebits_written, !writebit_written, <- !app_assoc. reflexivity.
  - rewrite !writebit_written, <- !app_assoc. reflexivity.
  - rewrite IHr, IHl, writebit_written, <- !app_assoc. reflexivity.
Qed.

Lemma write_tree_flushes (t : tree) (w : BitWriter) :
  w_flushes (write_tree t w) = w_flushes w.
Proof.
  revert w. induction t as [[s|]|l IHl r IHr]; intros w; cbn [write_tree].
  - now rewrite writebits_flushes, !writebit_flushes.
  - now rewrite !writebit_flushes.
  - now rewrite IHr, IHl, writebit_flushes.
Qed.

Lemma write_tree_ok (t : tree) (w : BitWriter) :
  writer_ok w → writer_ok (write_tree t w).
Proof.
  revert w. induction t as [[s|]|l IHl r IHr]; intros w H; cbn [write_tree].
  - apply writebits_ok. now do 2 apply writebit_ok.
  - now do 2 apply writebit_ok.
  - apply IHr, IHl, writebit_ok, H.
Qed.


Lemma height_tree_bits (t : tree) : (height t < length (tree_bits t))%nat.
Proof.
  induction t as [[s|]|l IHl r IHr]; cbn [height tree_bits length].
  - lia.
  - lia.
  - rewrite length_app. lia.
Qed.

Lemma value_bits_bits_value (bits : list bool) :
  length bits = 8%nat → value_bits (bits_value 0 bits) 8 = bits.
Proof.
  intros H.
  do 8 (destruct bits as [|? bits]; [discriminate H|]).
  destruct bits; [|discriminate H].
  repeat match goal with b : bool |- _ => destruct b end; reflexivity.
Qed.

Lemma read_tree_fuel_complete (t : tree) :
  ∀ (fuel : nat) (r : BitReader) (rest : list bool),
    well_formed t → pending r = tree_bits t ++ rest → (height t < fuel)%nat →
    ∃ r', read_tree_fuel fuel r = Ok (t, r') ∧ pending r' = rest.
Proof.
  induction t as [[s|]|lt IHl rt IHr]; intros fuel r rest Hwf Hp Hf;
    (destruct fuel as [|fuel]; [cbn [height] in Hf; lia|]);
    cbn [read_tree_fuel tree_bits app] in *.
  - destruct (readbit_cons r _ _ Hp) as (r1 & E1 & Hp1). rewrite E1. outcome_simpl.
    destruct (readbit_cons r1 _ _ Hp1) as (r2 & E2 & Hp2). rewrite E2. outcome_simpl.
    destruct (readbits_acc_app 8 0 r2 (value_bits s 8) rest (value_bits_length s 8) Hp2)
      as (r3 & E3 & Hp3).
    unfold readbits. rewrite E3. outcome_simpl.
    rewrite (bits_value_byte s Hwf). exists r3. split; [reflexivity|exact Hp3].
  - destruct (readbit_cons r _ _ Hp) as (r1 & E1 & Hp1). rewrite E1. outcome_simpl.
    destruct (readbit_cons r1 _ _ Hp1) as (r2 & E2 & Hp2). rewrite E2. outcome_simpl.
    exists r2. split; [reflexivity|exact Hp2].
  - destruct Hwf as [Hwl Hwr]. cbn [height] in Hf.
    destruct (readbit_cons r _ _ Hp) as (r1 & E1 & Hp1). rewrite E1. outcome_simpl.
    rewrite <- app_assoc in Hp1.
    destruct (IHl fuel r1 _ Hwl Hp1) as (r2 & E2 & Hp2); [lia|].
    rewrite E2. outcome_simpl.
    destruct (IHr fuel r2 _ Hwr Hp2) as (r3 & E3 & Hp3); [lia|].
    rewrite E3. outcome_simpl.
    exists r3. split; [reflexivity|exact Hp3].
Qed.

Lemma read_tree_fuel_sound (fuel : nat) :
  ∀ (r r' : BitReader) (t : tree),
    read_tree_fuel fuel r = Ok (t, r') →
    well_formed t ∧ pending r = tree_bits t ++ pending r'.
Proof.
  induction fuel as [|fuel IH]; intros r r' t H; [discriminate H|].
  cbn [read_tree_fuel] in H.
  destruct (readbit r) as [[b r1]| |] eqn:E1; outcome_simpl in H; try discriminate H.
  apply readbit_Ok in E1. rewrite E1. destruct b.
  - destruct (read_tree_fuel fuel r1) as [[lt r2]| |] eqn:E2;
      outcome_simpl in H; try discriminate H.
    destruct (read_tree_fuel fuel r2) as [[rt r3]| |] eqn:E3;
      outcome_simpl in H; try discriminate H.
    injection H as <- <-.
    destruct (IH _ _ _ E2) as [Hwl Hpl]. destruct (IH _ _ _ E3) as [Hwr Hpr].
    split; [split; assumption|].
    cbn [tree_bits app]. rewrite Hpl, Hpr, <- app_assoc. reflexivity.
  - destruct (readbit r1) as [[b2 r2]| |] eqn:E2; outcome_simpl in H; try discriminate H.
    apply readbit_Ok in E2. rewrite E2. destruct b2.
    + destruct (readbits 8 r2) as [[x r3]| |] eqn:E3; outcome_simpl in H; try discriminate H.
      injection H as <- <-.
      destruct (readbits_acc_Ok _ _ _ _ _ E3) as (bits & Hl & Hp & ->).
      split.
      * cbn [well_formed]. pose proof (bits_value_range bits) as Hr.
        rewrite Hl in Hr. exact Hr.
      * cbn [tree_bits app]. rewrite (value_bits_bits_value bits Hl), Hp. reflexivity.
    + injection H as <- <-. split; [exact I|reflexivity].
Qed.

Lemma read_tree_fuel_Raise (fuel : nat) :
  ∀ (r : BitReader) (e : exn), read_tree_fuel fuel r = Raise e → e = EOFError.
Proof.
  induction fuel as [|fuel IH]; intros r e H; [discriminate H|].
  cbn [read_tree_fuel] in H.
  destruct (readbit r) as [[b r1]|e1|] eqn:E1; outcome_simpl in H; try discriminate H.
  - destruct b.
    + destruct (read_tree_fuel fuel r1) as [[lt r2]|e2|] eqn:E2;
        outcome_simpl in H; try discriminate H.
      * destruct (read_tree_fuel fuel r2) as [[rt r3]|e3|] eqn:E3;
          outcome_simpl in H; try discriminate H.
        injection H as <-. exact (IH _ _ E3).
      * injection H as <-. exact (IH _ _ E2).
    + destruct (readbit r1) as [[b2 r2]|e2|] eqn:E2; outcome_simpl in H; try discriminate H.
      * destruct b2; [|discriminate H].
        destruct (readbits 8 r2) as [[x r3]|e3|] eqn:E3;
          outcome_simpl in H; try discriminate H.
        injection H as <-. exact (proj1 (readbits_acc_Raise _ _ _ _ E3)).
      * injection H as <-. exact (proj1 (readbit_Raise _ _ E2)).
  - injection H as <-. exact (proj1 (readbit_Raise _ _ E1)).
Qed.

(** One unit of fuel per pending bit, and one more, is always enough. *)
Lemma read_tree_fuel_enough (fuel : nat) :
  ∀ r : BitReader, (length (pending r) < fuel)%nat → read_tree_fuel fuel r ≠ OutOfFuel.
Proof.
  induction fuel as [|fuel IH]; intros r Hf; [lia|].
  cbn [read_tree_fuel].
  destruct (readbit r) as [[b r1]|e1|] eqn:E1; outcome_simpl; try discriminate.
  - apply readbit_Ok in E1. rewrite E1 in Hf. cbn [length] in Hf.
    destruct b.
    + destruct (read_tree_fuel fuel r1) as [[lt r2]|e2|] eqn:E2; outcome_simpl;
        try discriminate.
      * destruct (read_tree_fuel_sound _ _ _ _ E2) as [_ Hp].
        assert (Hf2 : (length (pending r2) < fuel)%nat).
        { rewrite Hp, length_app in Hf. lia. }
        specialize (IH r2 Hf2).
        destruct (read_tree_fuel fuel r2) as [[rt r3]|e3|]; outcome_simpl;
          [discriminate|discriminate|exact IH].
      * intros _. apply (IH r1); [lia|exact E2].
    + destruct (readbit r1) as [[b2 r2]|e2|] eqn:E2; outcome_simpl; try discriminate.
      * destruct b2; [|discriminate].
        pose proof (readbits_acc_fuel 8 0 r2) as Hn. fold (readbits 8 r2) in Hn.
        destruct (readbits 8 r2) as [[x r3]|e3|]; outcome_simpl;
          [discriminate|discriminate|contradiction Hn; reflexivity].
      * intros _. exact (readbit_fuel r1 E2).
  - intros _. exact (readbit_fuel r E1).
Qed.

Lemma read_tree_total (r : BitReader) : read_tree r ≠ OutOfFuel.
Proof. apply read_tree_fuel_enough. lia. Qed.

(** [read_tree] on a description followed by other bits. *)
Lemma read_tree_description (t : tree) (r : BitReader) (rest : list bool) :
  well_formed t → pending r = tree_bits t ++ rest →
  ∃ r', read_tree r = Ok (t, r') ∧ pending r' = rest.
Proof.
  intros Hwf Hp. apply read_tree_fuel_complete; [exact Hwf|exact Hp|].
  rewrite Hp, length_app. pose proof (height_tree_bits t). lia.
Qed.



End TreeCodec.

(** ** The encode loop *)

Section Compress.

Lemma readbits_byte (r : BitReader) (b : byte) (rest : list byte) :
  pending r = stream_bits (b :: rest) →
  ∃ r', readbits 8 r = Ok (byte_value b, r') ∧ pending r' = stream_bits rest.
Proof.
  intros Hp. rewrite stream_bits_cons in Hp.
  destruct (readbits_acc_app 8 0 r _ _ (byte_bits_length b) Hp) as (r' & E & Hp').
  exists r'. unfold readbits. rewrite E, bits_value_byte_bits. split; [reflexivity|exact Hp'].
Qed.

Lemma readbits_end (r : BitReader) :
  pending r = [] → readbits 8 r = Raise EOFError.
Proof.
  intros Hp. apply readbits_acc_short. rewrite Hp. cbn. lia.
Qed.

Lemma payload_None (encode : gmap Z (list bool)) (input : list byte) :
  payload encode input = None ↔
  ∃ b, b ∈ input ∧ encode !! byte_value b = None.
Proof.
  induction input as [|b rest IH]; cbn [payload].
  - split; [discriminate|]. intros (b & Hb & _). inversion Hb.
  - destruct (encode !! byte_value b) as [code|] eqn:E; cbn.
    + destruct (payload encode rest) as [bits|] eqn:Ep; cbn.
      * split; [discriminate|]. intros (b' & Hb & Hn).
        apply elem_of_cons in Hb as [->|Hb]; [congruence|].
        apply proj2 in IH. discriminate IH. eauto.
      * split; [|reflexivity]. intros _.
        destruct (proj1 IH eq_refl) as (b' & Hb & Hn).
        exists b'. split; [now apply list_elem_of_further|exact Hn].
    + split; [|reflexivity]. intros _. exists b. split; [apply list_elem_of_here|exact E].
Qed.

Lemma compress_loop_payload (encode : gmap Z (list bool)) (input : list byte) :
  ∀ (fuel : nat) (r : BitReader) (Target : BitWriter) (bits : list bool),
    pending r = stream_bits input → (length input < fuel)%nat →
    payload encode input = Some bits →
    ∃ W, compress_loop fuel encode r Target = Ok W
         ∧ written W = written Target ++ bits ++ [false; false]
         ∧ w_flushes W = w_flushes Target
         ∧ (writer_ok Target → writer_ok W).
Proof.
  induction input as [|b rest IH]; intros fuel r Target bits Hp Hf Hpay;
    (destruct fuel as [|fuel]; [lia|]); cbn [compress_loop].
  - rewrite (readbits_end r Hp). injection Hpay as <-.
    eexists. split; [reflexivity|].
    rewrite !writebit_written, !writebit_flushes, <- !app_assoc.
    split; [reflexivity|]. split; [reflexivity|].
    intros H. now do 2 apply writebit_ok.
  - destruct (readbits_byte r b rest Hp) as (r1 & E1 & Hp1). rewrite E1.
    cbn [payload] in Hpay.
    destruct (encode !! byte_value b) as [code|] eqn:E; [|discriminate Hpay].
    destruct (payload encode rest) as [bits'|] eqn:Ep; [|discriminate Hpay].
    injection Hpay as <-.
    destruct (IH fuel r1 (write_code code Target) bits' Hp1) as (W & EW & HW & HF & HO);
      [cbn [length] in Hf; lia|reflexivity|].
    exists W. split; [exact EW|].
    rewrite HW, HF, write_code_written, write_code_flushes, <- !app_assoc.
    split; [reflexivity|]. split; [reflexivity|].
    intros H. apply HO, write_code_ok, H.
Qed.

Lemma compress_loop_missing (encode : gmap Z (list bool)) (input : list byte) :
  ∀ (fuel : nat) (r : BitReader) (Target : BitWriter),
    pending r = stream_bits input → (length input < fuel)%nat →
    payload encode input = None →
    ∃ b, b ∈ input ∧ encode !! byte_value b = None
         ∧ compress_loop fuel encode r Target = Raise (KeyError (byte_value b)).
Proof.
  induction input as [|b rest IH]; intros fuel r Target Hp Hf Hpay;
    (destruct fuel as [|fuel]; [lia|]); cbn [compress_loop].
  - discriminate Hpay.
  - destruct (readbits_byte r b rest Hp) as (r1 & E1 & Hp1). rewrite E1.
    cbn [payload] in Hpay.
    destruct (encode !! byte_value b) as [code|] eqn:E.
    + destruct (payload encode rest) as [bits'|] eqn:Ep; [discriminate Hpay|].
      destruct (IH fuel r1 (write_code code Target) Hp1) as (b' & Hb & Hn & EW);
        [cbn [length] in Hf; lia|reflexivity|].
      exists b'. split; [now apply list_elem_of_further|]. split; [exact Hn|exact EW].
    + exists b. split; [apply list_elem_of_here|]. split; [exact E|reflexivity].
Qed.

(** The layout of the stream [compress] leaves behind, and the state of
    its writer, when every input byte has a code. *)
Lemma compress_run_layout
    (t : tree) (uncompressed : list byte) (bits : list bool) :
  payload (make_encoding_table t) uncompressed = Some bits →
  ∃ W, compress_run t uncompressed = Ok W
       ∧ compress t uncompressed = Ok (w_output W)
       ∧ stream_bits (w_output W) =
           (tree_bits t ++ bits ++ [false; false])
           ++ padding (length (tree_bits t ++ bits ++ [false; false]))
       ∧ w_bits W = []
       ∧ w_flushes W = 1%nat.
Proof.
  intros Hpay. unfold compress, compress_run.
  destruct (compress_loop_payload (make_encoding_table t) uncompressed
              (S (length uncompressed)) (new_reader uncompressed)
              (write_tree t new_writer) bits)
    as (W & EW & HW & HF & HO); [reflexivity|lia|exact Hpay|].
  rewrite EW. outcome_simpl. exists (flush W).
  split; [reflexivity|]. split; [reflexivity|].
  rewrite write_tree_written, write_tree_flushes in *.
  cbn [written new_writer w_output w_bits w_flushes stream_bits map concat app] in *.
  rewrite flush_output by (apply HO, write_tree_ok, new_writer_ok).
  fold (stream_bits (w_output W)). fold (written W).
  rewrite HW, flush_bits, flush_flushes, HF.
  split; [reflexivity|]. split; reflexivity.
Qed.

(** For every tree, the empty input compresses
    to the tree description, the two bits [0 0] and zero padding. *)
Lemma compress_empty_layout (t : tree) :
  ∃ out, compress t [] = Ok out
         ∧ stream_bits out =
             (tree_bits t ++ [false; false])
             ++ padding (length (tree_bits t ++ [false; false])).
Proof.
  destruct (compress_run_layout t [] [] eq_refl) as (W & _ & E & H & _).
  exists (w_output W). split; [exact E|exact H].
Qed.

End Compress.

(** ** The decode loop *)

Section Decode.


(** One round of the [while] loop of [decode_byte]. *)
Lemma decode_byte_branch (l r : tree) (rd : BitReader) :
  decode_byte (TreeBranch l r) rd =
  match readbit rd with
  | Ok (bit, rd') =>
      match (if bit : bool then r else l) with
      | TreeLeaf value => (value, rd')
      | TreeBranch a b => decode_byte (TreeBranch a b) rd'
      end
  | _ => (None, rd)
  end.
Proof.
  cbn [decode_byte]. destruct (readbit rd) as [[[|] rd']| |]; try reflexivity.
  - destruct r; reflexivity.
  - destruct l; reflexivity.
Qed.

Lemma decode_byte_runs_out (t : tree) :
  ∀ rd : BitReader,
    runs_out t (pending rd) = true → fst (decode_byte t rd) = None.
Proof.
  induction t as [v|l IHl r IHr]; intros rd H; [discriminate H|].
  rewrite decode_byte_branch. cbn [runs_out] in H.
  destruct (pending rd) as [|b bs] eqn:Hp.
  - rewrite (readbit_nil rd Hp). reflexivity.
  - destruct (readbit_cons rd b bs Hp) as (rd' & E & Hp'). rewrite E.
    destruct b.
    + destruct r as [v|a c]; [discriminate H|]. apply IHr. rewrite Hp'. exact H.
    + destruct l as [v|a c]; [discriminate H|]. apply IHl. rewrite Hp'. exact H.
Qed.

(** [decode_byte] only moves the reader forward, and a symbol costs at
    least one bit. *)
Lemma decode_byte_consumes (t : tree) :
  ∀ (rd : BitReader),
    (length (pending (snd (decode_byte t rd))) <= length (pending rd))%nat
    ∧ (is_Some (fst (decode_byte t rd)) →
       length (pending (snd (decode_byte t rd))) < length (pending rd))%nat.
Proof.
  induction t as [v|l IHl r IHr]; intros rd.
  - cbn. split; [lia|]. intros [x Hx]. discriminate Hx.
  - rewrite decode_byte_branch.
    destruct (readbit rd) as [[b rd']|e|] eqn:E.
    + apply readbit_Ok in E. rewrite E. cbn [length].
      destruct b.
      * destruct r as [v|a c]; [cbn; lia|].
        destruct (IHr rd') as [H1 H2]. split; [lia|]. intros _. lia.
      * destruct l as [v|a c]; [cbn; lia|].
        destruct (IHl rd') as [H1 H2]. split; [lia|]. intros _. lia.
    + cbn. split; [lia|]. intros [x Hx]. discriminate Hx.
    + cbn. split; [lia|]. intros [x Hx]. discriminate Hx.
Qed.

(** The loop of [decompress] stops as soon as [decode_byte] yields no
    value, whatever the reason. *)
Lemma decompress_loop_stop (fuel : nat) (t : tree) (rd : BitReader) (Target : BitWriter) :
  fst (decode_byte t rd) = None →
  decompress_loop (S fuel) t rd Target = Ok Target.
Proof.
  intros H. cbn [decompress_loop].
  destruct (decode_byte t rd) as [val rd']. cbn in H. rewrite H. reflexivity.
Qed.

(** The loop of [decompress] always ends, without an exception: one unit
    of fuel per pending bit, and one more, is enough. *)
Lemma decompress_loop_total (fuel : nat) (t : tree) :
  ∀ (rd : BitReader) (Target : BitWriter),
    (length (pending rd) < fuel)%nat →
    ∃ W, decompress_loop fuel t rd Target = Ok W
         ∧ w_flushes W = w_flushes Target
         ∧ (writer_ok Target → writer_ok W).
Proof.
  induction fuel as [|fuel IH]; intros rd Target Hf; [lia|].
  cbn [decompress_loop].
  pose proof (decode_byte_consumes t rd) as [H1 H2].
  destruct (decode_byte t rd) as [[v|] rd']; cbn [fst snd] in *.
  - destruct (IH rd' (writebits v 8 Target)) as (W & EW & HF & HO).
    + assert (is_Some (Some v)) as Hs by eauto. specialize (H2 Hs). lia.
    + exists W. split; [exact EW|]. rewrite HF, writebits_flushes.
      split; [reflexivity|]. intros H. apply HO, writebits_ok, H.
  - exists Target. split; [reflexivity|]. split; [reflexivity|]. intros H; exact H.
Qed.

(** Once the tree is read, [decompress] returns: the decode loop ends on
    the end marker or on the end of the data, the writer is flushed once,
    and no exception is raised. *)
Lemma decompress_returns (compressed : list byte) (t : tree) (rd : BitReader) :
  read_tree (new_reader compressed) = Ok (t, rd) →
  ∃ W, decompress_run compressed = Ok W
       ∧ decompress compressed = Ok (w_output W)
       ∧ w_bits W = [] ∧ w_flushes W = 1%nat.
Proof.
  intros E. unfold decompress, decompress_run. rewrite E. outcome_simpl.
  destruct (decompress_loop_total (S (length (pending rd))) t rd new_writer)
    as (W & EW & HF & _); [lia|].
  rewrite EW. outcome_simpl. exists (flush W).
  split; [reflexivity|]. split; [reflexivity|].
  rewrite flush_bits, flush_flushes, HF. split; reflexivity.
Qed.

End Decode.

(** ** Codes, paths and the round trip *)

Section RoundTrip.

Lemma table_from_lookup (t : tree) :
  ∀ (pre : list bool) (table : gmap Z (list bool)) (s : Z) (path : list bool),
    table_from t pre table !! s = Some path →
    table !! s = Some path
    ∨ ∃ suf, path = pre ++ suf ∧ follow t suf = Some (TreeLeaf (Some s)).
Proof.
  induction t as [[v|]|l IHl r IHr]; intros pre table s path H;
    cbn [table_from] in H.
  - destruct (decide (v = s)) as [->|Hne].
    + rewrite lookup_insert_eq in H. injection H as <-.
      right. exists []. rewrite app_nil_r. split; reflexivity.
    + rewrite lookup_insert_ne in H by exact Hne. left. exact H.
  - left. exact H.
  - apply IHr in H as [H|(suf & -> & Hf)].
    + apply IHl in H as [H|(suf & -> & Hf)]; [left; exact H|].
      right. exists (false :: suf). rewrite <- app_assoc. split; [reflexivity|exact Hf].
    + right. exists (true :: suf). rewrite <- app_assoc. split; [reflexivity|exact Hf].
Qed.

(** Every entry of the encoding table is the path to a leaf with that
    symbol. *)
Lemma make_encoding_table_follow (t : tree) (s : Z) (path : list bool) :
  make_encoding_table t !! s = Some path →
  follow t path = Some (TreeLeaf (Some s)).
Proof.
  intros H. apply table_from_lookup in H as [H|(suf & -> & Hf)].
  - rewrite lookup_empty in H. discriminate H.
  - exact Hf.
Qed.

(** Reading the path to a leaf makes [decode_byte] return the value of
    that leaf and stop right after the path. *)
Lemma decode_byte_follow (path : list bool) :
  ∀ (t : tree) (v : option Z) (rd : BitReader) (rest : list bool),
    follow t path = Some (TreeLeaf v) → path ≠ [] →
    pending rd = path ++ rest →
    ∃ rd', decode_byte t rd = (v, rd') ∧ pending rd' = rest.
Proof.
  induction path as [|b p IH]; intros t v rd rest Hf Hne Hp; [congruence|].
  destruct t as [v0|l r]; [discriminate Hf|]. cbn [follow] in Hf.
  rewrite decode_byte_branch.
  destruct (readbit_cons rd b (p ++ rest) Hp) as (rd1 & E & Hp1). rewrite E.
  destruct (if b then r else l) as [v1|a c] eqn:Ec.
  - destruct p as [|b' p]; [|discriminate Hf].
    injection Hf as <-. exists rd1. split; [reflexivity|exact Hp1].
  - destruct p as [|b' p]; [discriminate Hf|].
    apply (IH (TreeBranch a c) v rd1 rest Hf); [discriminate|exact Hp1].
Qed.

(** On 0 bits only, [decode_byte] yields no value when the leftmost leaf
    is the end marker: it reaches that leaf, or the bits end first. *)
Lemma decode_byte_zeros (t : tree) :
  ∀ (rd : BitReader) (k : nat),
    leftmost t = None → pending rd = repeat false k →
    fst (decode_byte t rd) = None.
Proof.
  induction t as [v|l IHl r _]; intros rd k Hl Hp; [reflexivity|].
  rewrite decode_byte_branch. destruct k as [|k]; cbn [repeat] in Hp.
  - rewrite (readbit_nil rd Hp). reflexivity.
  - destruct (readbit_cons rd _ _ Hp) as (rd1 & E & Hp1). rewrite E.
    cbn [leftmost] in Hl. destruct l as [v|a c]; [exact Hl|].
    apply (IHl rd1 k Hl Hp1).
Qed.

Lemma decompress_loop_payload (encode : gmap Z (list bool)) (l r : tree)
    (input : list byte) :
  (∀ s path, encode !! s = Some path →
     follow (TreeBranch l r) path = Some (TreeLeaf (Some s))) →
  ∀ (bits : list bool) (fuel : nat) (rd : BitReader) (rest : list bool)
    (Target : BitWriter),
    payload encode input = Some bits →
    pending rd = bits ++ rest → (length (pending rd) < fuel)%nat →
    ∃ rd' fuel',
      pending rd' = rest ∧ (length rest < fuel')%nat
      ∧ decompress_loop fuel (TreeBranch l r) rd Target =
        decompress_loop fuel' (TreeBranch l r) rd' (write_bytes input Target).
Proof.
  intros Henc. induction input as [|b input IH];
    intros bits fuel rd rest Target Hpay Hp Hf; cbn [payload] in Hpay.
  - injection Hpay as <-. exists rd, fuel. rewrite Hp in Hf.
    split; [exact Hp|]. split; [exact Hf|reflexivity].
  - destruct (encode !! byte_value b) as [code|] eqn:E; [|discriminate Hpay].
    destruct (payload encode input) as [bits'|] eqn:Ep; [|discriminate Hpay].
    injection Hpay as <-. rewrite <- app_assoc in Hp.
    pose proof (Henc _ _ E) as Hfo.
    assert (Hne : code ≠ []) by (intros ->; discriminate Hfo).
    destruct (decode_byte_follow code _ _ rd _ Hfo Hne Hp) as (rd1 & Ed & Hp1).
    destruct fuel as [|fuel]; [lia|].
    assert (Hf1 : (length (pending rd1) < fuel)%nat).
    { rewrite Hp, length_app in Hf. rewrite Hp1.
      destruct code; [congruence|]. cbn [length] in Hf. lia. }
    destruct (IH bits' fuel rd1 rest (writebits (byte_value b) 8 Target)
                eq_refl Hp1 Hf1) as (rd' & fuel' & Hp' & Hf' & EL).
    exists rd', fuel'. split; [exact Hp'|]. split; [exact Hf'|].
    cbn [decompress_loop]. rewrite Ed. exact EL.
Qed.

Lemma value_bits_byte_value (b : byte) :
  value_bits (byte_value b) 8 = byte_bits b.
Proof. destruct b; reflexivity. Qed.

Lemma write_bytes_written (bs : list byte) :
  ∀ w : BitWriter,
    written (write_bytes bs w) = written w ++ stream_bits bs
    ∧ (writer_ok w → writer_ok (write_bytes bs w)).
Proof.
  unfold write_bytes. induction bs as [|b bs IH]; intros w; cbn [fold_left].
  - unfold stream_bits. cbn. rewrite app_nil_r. split; [reflexivity|tauto].
  - destruct (IH (writebits (byte_value b) 8 w)) as [HW HO].
    rewrite HW, writebits_written, value_bits_byte_value, stream_bits_cons,
      <- app_assoc.
    split; [reflexivity|]. intros H. apply HO, writebits_ok, H.
Qed.

Lemma stream_bits_inj (xs : list byte) :
  ∀ ys : list byte, stream_bits xs = stream_bits ys → xs = ys.
Proof.
  induction xs as [|a xs IH]; intros [|b ys] H.
  - reflexivity.
  - apply (f_equal (@length bool)) in H. rewrite !stream_bits_length in H.
    cbn [length] in H. lia.
  - apply (f_equal (@length bool)) in H. rewrite !stream_bits_length in H.
    cbn [length] in H. lia.
  - rewrite !stream_bits_cons in H.
    apply app_inj_1 in H as [Hab Hr]; [|now rewrite !byte_bits_length].
    f_equal; [|apply IH, Hr].
    rewrite <- (bits_byte_bits a), <- (bits_byte_bits b), Hab. reflexivity.
Qed.

Lemma padding_aligned (n : nat) : padding (8 * n) = [].
Proof.
  unfold padding. rewrite Nat.mul_comm, Nat.Div0.mod_mul. reflexivity.
Qed.

(** What [decompress] returns on a stream made of the description of a
    tree with a branch at the root, the codes of some bytes, and a tail on
    which [decode_byte] yields no value: those bytes. *)
Lemma decompress_payload_then_stop (l r : tree) (input compressed : list byte)
    (bits tail : list bool) :
  well_formed (TreeBranch l r) →
  payload (make_encoding_table (TreeBranch l r)) input = Some bits →
  stream_bits compressed = tree_bits (TreeBranch l r) ++ bits ++ tail →
  (∀ rd, pending rd = tail → fst (decode_byte (TreeBranch l r) rd) = None) →
  decompress compressed = Ok input.
Proof.
  intros Hwf Hpay Hs Hstop. unfold decompress, decompress_run.
  destruct (read_tree_description (TreeBranch l r) (new_reader compressed)
              (bits ++ tail) Hwf Hs) as (rd1 & E1 & Hp1).
  rewrite E1. outcome_simpl.
  destruct (decompress_loop_payload (make_encoding_table (TreeBranch l r)) l r input
              (make_encoding_table_follow (TreeBranch l r))
              bits (S (length (pending rd1))) rd1 tail new_writer Hpay Hp1)
    as (rd2 & fuel2 & Hp2 & Hf2 & EL); [lia|].
  rewrite EL. destruct fuel2 as [|fuel2]; [lia|].
  rewrite (decompress_loop_stop fuel2 _ rd2 _ (Hstop rd2 Hp2)). outcome_simpl.
  f_equal. apply stream_bits_inj.
  destruct (write_bytes_written input new_writer) as [HW HO].
  rewrite flush_output by (apply HO, new_writer_ok).
  rewrite HW. cbn [written new_writer w_output w_bits stream_bits map concat app].
  fold (stream_bits input).
  rewrite stream_bits_length, padding_aligned, app_nil_r. reflexivity.
Qed.

(** The round trip, where the fixed terminator [0 0] does work: the root is
    a branch and the leftmost leaf is the end marker, so that the terminator
    and the padding, all 0 bits, lead to the end marker or end first. *)
Lemma roundtrip_end_marker_leftmost (l r : tree) (input : list byte)
    (bits : list bool) :
  well_formed (TreeBranch l r) →
  leftmost (TreeBranch l r) = None →
  payload (make_encoding_table (TreeBranch l r)) input = Some bits →
  ∃ compressed, compress (TreeBranch l r) input = Ok compressed
                ∧ decompress compressed = Ok input.
Proof.
  intros Hwf Hl Hpay.
  destruct (compress_run_layout _ _ _ Hpay) as (W & _ & EC & HS & _).
  exists (w_output W). split; [exact EC|].
  apply (decompress_payload_then_stop l r input (w_output W) bits
           ([false; false] ++ padding (length (tree_bits (TreeBranch l r) ++ bits ++ [false; false])))
           Hwf Hpay).
  - rewrite HS, <- !app_assoc. reflexivity.
  - intros rd Hp. unfold padding in Hp.
    apply (decode_byte_zeros _ rd (2 + _) Hl Hp).
Qed.

(** A payload cut in the middle of a code decodes to the bytes before the
    cut, as if the end marker had been there. *)
Lemma decompress_truncated_payload (l r : tree) (input compressed : list byte)
    (bits tail : list bool) :
  well_formed (TreeBranch l r) →
  payload (make_encoding_table (TreeBranch l r)) input = Some bits →
  stream_bits compressed = tree_bits (TreeBranch l r) ++ bits ++ tail →
  runs_out (TreeBranch l r) tail = true →
  decompress compressed = Ok input.
Proof.
  intros Hwf Hpay Hs Hr.
  apply (decompress_payload_then_stop l r input compressed bits tail Hwf Hpay Hs).
  intros rd Hp. apply decode_byte_runs_out. rewrite Hp. exact Hr.
Qed.

(** The same loop on any sequence of paths to symbol leaves. *)
Lemma decompress_loop_paths (l r : tree) (input : list byte) (paths : list (list bool)) :
  Forall2 (λ b path, follow (TreeBranch l r) path = Some (TreeLeaf (Some (byte_value b))))
    input paths →
  ∀ (fuel : nat) (rd : BitReader) (rest : list bool) (Target : BitWriter),
    pending rd = concat paths ++ rest → (length (pending rd) < fuel)%nat →
    ∃ rd' fuel',
      pending rd' = rest ∧ (length rest < fuel')%nat
      ∧ decompress_loop fuel (TreeBranch l r) rd Target =
        decompress_loop fuel' (TreeBranch l r) rd' (write_bytes input Target).
Proof.
  induction 1 as [|b path input paths Hfo _ IH]; intros fuel rd rest Target Hp Hf.
  - exists rd, fuel. cbn [concat app] in Hp. rewrite Hp in Hf.
    split; [exact Hp|]. split; [exact Hf|reflexivity].
  - cbn [concat] in Hp. rewrite <- app_assoc in Hp.
    assert (Hne : path ≠ []) by (intros ->; discriminate Hfo).
    destruct (decode_byte_follow path _ _ rd _ Hfo Hne Hp) as (rd1 & Ed & Hp1).
    destruct fuel as [|fuel]; [lia|].
    assert (Hf1 : (length (pending rd1) < fuel)%nat).
    { rewrite Hp, length_app in Hf. rewrite Hp1.
      destruct path; [congruence|]. cbn [length] in Hf. lia. }
    destruct (IH fuel rd1 rest (writebits (byte_value b) 8 Target) Hp1 Hf1)
      as (rd' & fuel' & Hp' & Hf' & EL).
    exists rd', fuel'. split; [exact Hp'|]. split; [exact Hf'|].
    cbn [decompress_loop]. rewrite Ed. exact EL.
Qed.

(** What [decompress] hands to the stream when it has written the bytes
    [input] and nothing else: those bytes. *)
Lemma write_bytes_flush_output (input : list byte) :
  w_output (flush (write_bytes input new_writer)) = input.
Proof.
  apply stream_bits_inj.
  destruct (write_bytes_written input new_writer) as [HW HO].
  rewrite flush_output by (apply HO, new_writer_ok).
  rewrite HW. cbn [written new_writer w_output w_bits stream_bits map concat app].
  fold (stream_bits input).
  rewrite stream_bits_length, padding_aligned, app_nil_r. reflexivity.
Qed.

(** The writer of [decompress] on the description of a tree with a branch
    at the root, any paths to symbol leaves, and a tail on which
    [decode_byte] yields no value: the bytes of those symbols were
    written, then the writer was flushed. *)
Lemma decompress_run_paths_then_stop (l r : tree) (input compressed : list byte)
    (paths : list (list bool)) (tail : list bool) :
  well_formed (TreeBranch l r) →
  Forall2 (λ b path, follow (TreeBranch l r) path = Some (TreeLeaf (Some (byte_value b))))
    input paths →
  stream_bits compressed = tree_bits (TreeBranch l r) ++ concat paths ++ tail →
  (∀ rd, pending rd = tail → fst (decode_byte (TreeBranch l r) rd) = None) →
  decompress_run compressed = Ok (flush (write_bytes input new_writer)).
Proof.
  intros Hwf Hpaths Hs Hstop. unfold decompress_run.
  destruct (read_tree_description (TreeBranch l r) (new_reader compressed)
              (concat paths ++ tail) Hwf Hs) as (rd1 & E1 & Hp1).
  rewrite E1. outcome_simpl.
  destruct (decompress_loop_paths l r input paths Hpaths
              (S (length (pending rd1))) rd1 tail new_writer Hp1)
    as (rd2 & fuel2 & Hp2 & Hf2 & EL); [lia|].
  rewrite EL. destruct fuel2 as [|fuel2]; [lia|].
  rewrite (decompress_loop_stop fuel2 _ rd2 _ (Hstop rd2 Hp2)). reflexivity.
Qed.

End RoundTrip.


(** ** The recursion limit *)

Section RecursionLimit.





Lemma readbit_frames_Raise (frames : nat) (r : BitReader) (e : exn) :
  readbit_frames frames r = Raise e → e = EOFError ∨ e = RecursionError.
Proof.
  destruct frames; cbn [readbit_frames].
  - intros [= <-]. right. reflexivity.
  - intros H. left. exact (proj1 (readbit_Raise r e H)).
Qed.

Lemma readbits_frames_Raise (frames n : nat) (r : BitReader) (e : exn) :
  readbits_frames frames n r = Raise e → e = EOFError ∨ e = RecursionError.
Proof.
  destruct frames as [|[|inner]]; cbn [readbits_frames].
  - intros [= <-]. right. reflexivity.
  - destruct n; [discriminate|]. intros [= <-]. right. reflexivity.
  - intros H. left. assert (H' : readbits n r = Raise e) by (destruct n; exact H).
    exact (proj1 (readbits_acc_Raise _ _ _ _ H')).
Qed.

Lemma readbit_frames_fuel (frames : nat) (r : BitReader) :
  readbit_frames frames r ≠ OutOfFuel.
Proof. destruct frames; [discriminate|apply readbit_fuel]. Qed.

Lemma readbits_frames_fuel (frames n : nat) (r : BitReader) :
  readbits_frames frames n r ≠ OutOfFuel.
Proof.
  destruct frames as [|[|inner]]; cbn [readbits_frames]; [discriminate| |].
  - destruct n; [discriminate|discriminate].
  - destruct n; apply readbits_acc_fuel.
Qed.


(** Under a frame budget [read_tree] raises [EOFError] or
    [RecursionError], nothing else. *)
Lemma read_tree_frames_Raise (limit : nat) :
  ∀ (r : BitReader) (e : exn),
    read_tree_frames limit r = Raise e → e = EOFError ∨ e = RecursionError.
Proof.
  induction limit as [|inner IH]; intros r e H.
  - injection H as <-. right. reflexivity.
  - cbn [read_tree_frames] in H.
    destruct (readbit_frames inner r) as [[b r1]|e1|] eqn:E1;
      outcome_simpl in H; try discriminate H.
    + destruct b.
      * destruct (read_tree_frames inner r1) as [[lt r2]|e2|] eqn:E2;
          outcome_simpl in H; try discriminate H.
        -- destruct (read_tree_frames inner r2) as [[rt r3]|e3|] eqn:E3;
             outcome_simpl in H; try discriminate H.
           injection H as <-. exact (IH _ _ E3).
        -- injection H as <-. exact (IH _ _ E2).
      * destruct (readbit_frames inner r1) as [[b2 r2]|e2|] eqn:E2;
          outcome_simpl in H; try discriminate H.
        -- destruct b2; [|discriminate H].
           destruct (readbits_frames inner 8 r2) as [[x r3]|e3|] eqn:E3;
             outcome_simpl in H; try discriminate H.
           injection H as <-. exact (readbits_frames_Raise _ _ _ _ E3).
        -- injection H as <-. exact (readbit_frames_Raise _ _ _ E2).
    + injection H as <-. exact (readbit_frames_Raise _ _ _ E1).
Qed.

(** The frame budget makes the recursion end: no fuel is involved. *)
Lemma read_tree_frames_fuel (limit : nat) :
  ∀ r : BitReader, read_tree_frames limit r ≠ OutOfFuel.
Proof.
  induction limit as [|inner IH]; intros r; [discriminate|].
  cbn [read_tree_frames].
  pose proof (readbit_frames_fuel inner r) as F1.
  destruct (readbit_frames inner r) as [[b r1]|e1|];
    outcome_simpl; [|discriminate|contradiction F1; reflexivity].
  destruct b.
  - pose proof (IH r1) as F2.
    destruct (read_tree_frames inner r1) as [[lt r2]|e2|];
      outcome_simpl; [|discriminate|contradiction F2; reflexivity].
    pose proof (IH r2) as F3.
    destruct (read_tree_frames inner r2) as [[rt r3]|e3|];
      outcome_simpl; [discriminate|discriminate|contradiction F3; reflexivity].
  - pose proof (readbit_frames_fuel inner r1) as F2.
    destruct (readbit_frames inner r1) as [[b2 r2]|e2|];
      outcome_simpl; [|discriminate|contradiction F2; reflexivity].
    destruct b2; [|discriminate].
    pose proof (readbits_frames_fuel inner 8 r2) as F3.
    destruct (readbits_frames inner 8 r2) as [[x r3]|e3|];
      outcome_simpl; [discriminate|discriminate|contradiction F3; reflexivity].
Qed.






(** [decompress] passes on what [read_tree] raises. *)
Lemma decompress_frames_Raise (limit : nat) (compressed : list byte) (e : exn) :
  read_tree_frames limit (new_reader compressed) = Raise e →
  decompress_frames limit compressed = Raise e.
Proof.
  intros E. unfold decompress_frames, decompress_run_frames. rewrite E. reflexivity.
Qed.

(** Once [read_tree] has returned, [decompress] returns, with the writer
    flushed once. *)
Lemma decompress_frames_returns (limit : nat) (compressed : list byte)
    (t : tree) (rd : BitReader) :
  read_tree_frames limit (new_reader compressed) = Ok (t, rd) →
  ∃ W, decompress_run_frames limit compressed = Ok W
       ∧ decompress_frames limit compressed = Ok (w_output W)
       ∧ w_bits W = [] ∧ w_flushes W = 1%nat.
Proof.
  intros E. unfold decompress_frames, decompress_run_frames. rewrite E. outcome_simpl.
  destruct (decompress_loop_total (S (length (pending rd))) t rd new_writer)
    as (W & EW & HF & _); [lia|].
  rewrite EW. outcome_simpl. exists (flush W).
  split; [reflexivity|]. split; [reflexivity|].
  rewrite flush_bits, flush_flushes, HF. split; reflexivity.
Qed.

End RecursionLimit.

(** ** Properties of the codec and of the streams *)

(** C1, at the input where it fails: with symbol 65 on the left of the root
    and the end marker on the right, [compress] turns the one-byte input
    [A] into the two bytes [a8 20], and [decompress] turns these into the
    three bytes [AAA]: the two terminator bits [0 0] and the padding bit
    are each decoded as the symbol whose code is [0]. *)
Theorem roundtrip_decodes_terminator_as_symbols :
  compress tree_sym_eof [x41] = Ok [xa8; x20]
  ∧ decompress [xa8; x20] = Ok [x41; x41; x41].
Proof. split; vm_compute; reflexivity. Qed.

(** The same defect with a tree that is a single symbol leaf: every input
    byte has the empty code, and [decompress] returns no byte at all. *)
Lemma roundtrip_single_leaf_loses_input :
  compress (TreeLeaf (Some 65)) [x41; x41] = Ok [x50; x40]
  ∧ decompress [x50; x40] = Ok [].
Proof. split; vm_compute; reflexivity. Qed.

(** C2: for a well-formed tree, [read_tree] on a reader whose pending bits
    are those written by [write_tree] on a fresh writer, followed by any
    other bits, returns the same tree and leaves the reader at the first
    bit after the description. *)
Theorem read_tree_write_tree (t : tree) (r : BitReader) (rest : list bool) :
  well_formed t →
  pending r = written (write_tree t new_writer) ++ rest →
  ∃ r', read_tree r = Ok (t, r') ∧ pending r' = rest.
Proof.
  intros Hwf Hp. rewrite write_tree_written in Hp.
  apply read_tree_description; [exact Hwf|exact Hp].
Qed.

Lemma read_tree_write_tree_witness :
  ∃ r', read_tree (new_reader [xa8; x20]) = Ok (tree_sym_eof, r')
        ∧ pending r' = [false; false; false].
Proof.
  apply (read_tree_write_tree tree_sym_eof (new_reader [xa8; x20])
           [false; false; false]).
  - cbn. lia.
  - reflexivity.
Defined.

(** C3, where it fails: when the root is a leaf the loop of [decode_byte]
    is never entered and the function returns [None], whatever the leaf
    holds; no bit is read. *)
Theorem decode_byte_root_leaf (value : option Z) (rd : BitReader) :
  decode_byte (TreeLeaf value) rd = (None, rd).
Proof. reflexivity. Qed.

(** C4: when every input byte has a code, [compress] returns, and the
    stream holds the tree description, the codes of the bytes, the two
    bits [0 0] and then only the zero bits that complete the last byte;
    the writer was flushed exactly once and holds no pending bit. *)
Theorem compress_terminator_and_flush
    (t : tree) (uncompressed : list byte) (bits : list bool) :
  payload (make_encoding_table t) uncompressed = Some bits →
  ∃ W, compress_run t uncompressed = Ok W
       ∧ compress t uncompressed = Ok (w_output W)
       ∧ stream_bits (w_output W) =
           (tree_bits t ++ bits ++ [false; false])
           ++ padding (length (tree_bits t ++ bits ++ [false; false]))
       ∧ w_bits W = []
       ∧ w_flushes W = 1%nat.
Proof. apply compress_run_layout. Qed.

Lemma compress_terminator_and_flush_witness :
  ∃ W, compress_run tree_sym_eof [x41] = Ok W
       ∧ compress tree_sym_eof [x41] = Ok (w_output W)
       ∧ stream_bits (w_output W) =
           (tree_bits tree_sym_eof ++ [false] ++ [false; false])
           ++ padding (length (tree_bits tree_sym_eof ++ [false] ++ [false; false]))
       ∧ w_bits W = []
       ∧ w_flushes W = 1%nat.
Proof.
  apply (compress_terminator_and_flush tree_sym_eof [x41] [false]).
  vm_compute. reflexivity.
Defined.

(** C5: [write_tree] appends to the bits written so far exactly the bits
    of the grammar ([1 left right], [0 0], [0 1] and the eight bits of the
    symbol), and the number of flushes of the writer is unchanged. *)
Theorem write_tree_grammar (t : tree) (w : BitWriter) :
  written (write_tree t w) = written w ++ tree_bits t
  ∧ w_flushes (write_tree t w) = w_flushes w.
Proof. split; [apply write_tree_written|apply write_tree_flushes]. Qed.




(** The first byte alone of a two-byte stream: the description of the tree
    is cut after eight of its thirteen bits. *)
Example decompress_first_byte_only :
  tree_bits tree_sym_eof = stream_bits [xa8] ++ [false; false; true; false; false]
  ∧ read_tree (new_reader [xa8]) = Raise EOFError
  ∧ decompress [xa8] = Raise EOFError.
Proof. repeat split; vm_compute; reflexivity. Qed.

(** C7: with a branch at the root, when the pending bits end before the
    descent reaches a leaf, [decode_byte] returns [None] (the [EOFError]
    is caught) and the loop of [decompress] stops there and returns the
    writer as it is.  So on a stream made of the description of the tree,
    the paths of any symbols and then those bits, [decompress] has written
    the bytes of the symbols, flushes the writer and returns them, without
    an exception; and it ends in the same state as on the stream that has
    the path to an end-marker leaf, and anything after it, in place of
    those bits. *)
Theorem decode_byte_end_of_data
    (l r : tree) (rd : BitReader) (Target : BitWriter) (fuel : nat) :
  runs_out (TreeBranch l r) (pending rd) = true →
  fst (decode_byte (TreeBranch l r) rd) = None
  ∧ decompress_loop (S fuel) (TreeBranch l r) rd Target = Ok Target
  ∧ ∀ (compressed input : list byte) (paths : list (list bool)),
      well_formed (TreeBranch l r) →
      Forall2 (λ b path, follow (TreeBranch l r) path
                         = Some (TreeLeaf (Some (byte_value b)))) input paths →
      stream_bits compressed
      = tree_bits (TreeBranch l r) ++ concat paths ++ pending rd →
      decompress_run compressed = Ok (flush (write_bytes input new_writer))
      ∧ decompress compressed = Ok input
      ∧ ∀ (marked : list byte) (eof junk : list bool),
          follow (TreeBranch l r) eof = Some (TreeLeaf None) →
          stream_bits marked
          = tree_bits (TreeBranch l r) ++ concat paths ++ eof ++ junk →
          decompress_run marked = decompress_run compressed.
Proof.
  intros H. pose proof (decode_byte_runs_out _ _ H) as Hn.
  split; [exact Hn|]. split; [apply decompress_loop_stop, Hn|].
  intros compressed input paths Hwf Hpaths Hs.
  assert (Hrun : decompress_run compressed
                 = Ok (flush (write_bytes input new_writer))).
  { apply (decompress_run_paths_then_stop l r input compressed paths (pending rd)
             Hwf Hpaths Hs).
    intros rd0 Hp0. apply decode_byte_runs_out. rewrite Hp0. exact H. }
  split; [exact Hrun|]. split.
  - unfold decompress. rewrite Hrun. outcome_simpl.
    rewrite write_bytes_flush_output. reflexivity.
  - intros marked eof junk Heof Hm. rewrite Hrun.
    apply (decompress_run_paths_then_stop l r input marked paths (eof ++ junk)
             Hwf Hpaths Hm).
    intros rd0 Hp0.
    assert (Hne : eof ≠ []) by (intros ->; discriminate Heof).
    destruct (decode_byte_follow eof _ _ rd0 junk Heof Hne Hp0) as (rd' & E & _).
    rewrite E. reflexivity.
Qed.

Lemma decode_byte_end_of_data_witness :
  fst (decode_byte tree_deep (reader_of_bits [false])) = None
  ∧ decompress_loop 1 tree_deep (reader_of_bits [false]) new_writer = Ok new_writer
  ∧ decompress_run [xd4; x11; x42; xfe]
    = Ok (flush (write_bytes [x42; x42; x42; x42; x42; x42; x42] new_writer))
  ∧ decompress [xd4; x11; x42; xfe] = Ok [x42; x42; x42; x42; x42; x42; x42]
  ∧ decompress_run [xd4; x11; x42; xfe; xff] = decompress_run [xd4; x11; x42; xfe].
Proof.
  destruct (decode_byte_end_of_data
              (TreeBranch (TreeLeaf (Some 65)) (TreeLeaf None)) (TreeLeaf (Some 66))
              (reader_of_bits [false]) new_writer 0 eq_refl) as (H1 & H2 & H3).
  destruct (H3 [xd4; x11; x42; xfe] [x42; x42; x42; x42; x42; x42; x42]
              [[true]; [true]; [true]; [true]; [true]; [true]; [true]])
    as (H4 & H5 & H6).
  - cbn. lia.
  - repeat constructor.
  - vm_compute. reflexivity.
  - split; [exact H1|]. split; [exact H2|]. split; [exact H4|]. split; [exact H5|].
    apply (H6 [xd4; x11; x42; xfe; xff] [false; true]
             [true; true; true; true; true; true; true]).
    + reflexivity.
    + vm_compute. reflexivity.
Defined.

(** The description of [tree_deep] fills three bytes; with nothing after
    it the first descent finds no bit, and [decompress] returns the empty
    output. *)
Example decompress_description_only :
  read_tree (new_reader [xd4; x11; x42])
  = Ok (tree_deep, {| r_input := []; r_bits := [] |})
  ∧ decompress [xd4; x11; x42] = Ok [].
Proof. split; vm_compute; reflexivity. Qed.

(** A payload cut inside a code: after seven codes [1] of symbol 66 the
    last bit [0] starts a code that never ends; the seven bytes are
    returned and no exception is raised. *)
Example decompress_cut_inside_code :
  stream_bits [xd4; x11; x42; xfe]
  = tree_bits tree_deep ++ repeat true 7 ++ [false]
  ∧ decompress [xd4; x11; x42; xfe]
    = Ok [x42; x42; x42; x42; x42; x42; x42].
Proof. split; vm_compute; reflexivity. Qed.

(** C8: when some byte of the input has no entry in the encoding table of
    the tree, [compress] raises [KeyError] for such a byte; nothing is
    returned. *)
Theorem compress_unencodable_byte (t : tree) (uncompressed : list byte) :
  (∃ b, b ∈ uncompressed ∧ make_encoding_table t !! byte_value b = None) →
  ∃ b, b ∈ uncompressed
       ∧ make_encoding_table t !! byte_value b = None
       ∧ compress t uncompressed = Raise (KeyError (byte_value b)).
Proof.
  intros H. apply payload_None in H.
  destruct (compress_loop_missing (make_encoding_table t) uncompressed
              (S (length uncompressed)) (new_reader uncompressed)
              (write_tree t new_writer))
    as (b & Hb & Hn & E); [reflexivity|lia|exact H|].
  exists b. split; [exact Hb|]. split; [exact Hn|].
  unfold compress, compress_run. rewrite E. reflexivity.
Qed.

Lemma compress_unencodable_byte_witness :
  ∃ b, b ∈ [x41; x42]
       ∧ make_encoding_table tree_eof_sym !! byte_value b = None
       ∧ compress tree_eof_sym [x41; x42] = Raise (KeyError (byte_value b)).
Proof.
  apply (compress_unencodable_byte tree_eof_sym [x41; x42]).
  exists x42. split.
  - apply list_elem_of_further, list_elem_of_here.
  - vm_compute. reflexivity.
Defined.

(** C9, at the input where it fails: with symbol 65 on the left of the root
    and the end marker on the right, the empty input compresses to the
    two bytes [a8 20] (description, [0 0], one padding bit), and
    [decompress] turns these into the three bytes [AAA] instead of the
    empty output. *)
Theorem empty_input_decodes_terminator_as_symbols :
  compress tree_sym_eof [] = Ok [xa8; x20]
  ∧ decompress [xa8; x20] = Ok [x41; x41; x41].
Proof. split; vm_compute; reflexivity. Qed.

(** C10: a tree returned by [read_tree] is well formed (each symbol is a
    value of eight bits, between 0 and 255), and the bits consumed are
    exactly its description. *)
Theorem read_tree_well_formed (r r' : BitReader) (t : tree) :
  read_tree r = Ok (t, r') →
  well_formed t ∧ pending r = tree_bits t ++ pending r'.
Proof. apply read_tree_fuel_sound. Qed.

Lemma read_tree_well_formed_witness :
  well_formed tree_sym_eof
  ∧ pending (new_reader [xa8; x20]) =
      tree_bits tree_sym_eof ++ pending {| r_input := []; r_bits := [false; false; false] |}.
Proof.
  apply (read_tree_well_formed (new_reader [xa8; x20])
           {| r_input := []; r_bits := [false; false; false] |} tree_sym_eof).
  vm_compute. reflexivity.
Defined.

(** ** Further properties of the codec and of the streams *)

Section DecodePaths.

(** What one call of [decode_byte] does: it follows the bits read down to a
    leaf and returns the value there, or the bits end on the way, or the
    root is a leaf and nothing is read. *)
Lemma decode_byte_path (t : tree) :
  ∀ (rd : BitReader) (v : option Z) (rd' : BitReader),
    decode_byte t rd = (v, rd') →
    (∃ path, path ≠ [] ∧ pending rd = path ++ pending rd'
             ∧ follow t path = Some (TreeLeaf v))
    ∨ (v = None ∧ pending rd' = [] ∧ runs_out t (pending rd) = true)
    ∨ (v = None ∧ rd' = rd ∧ ∃ x, t = TreeLeaf x).
Proof.
  induction t as [x|l IHl r IHr]; intros rd v rd' H.
  - cbn in H. injection H as <- <-. right. right. eauto.
  - rewrite decode_byte_branch in H.
    destruct (readbit rd) as [[b rd1]|e|] eqn:E.
    + apply readbit_Ok in E. destruct b.
      * destruct r as [x|a c].
        -- injection H as <- <-. left. exists [true].
           split; [discriminate|]. split; [exact E|reflexivity].
        -- apply IHr in H as [(path & Hne & Hp & Hf)|[(-> & Hp & Hr)|(_ & _ & x & Hx)]].
           ++ left. exists (true :: path). split; [discriminate|].
              split; [rewrite E, Hp; reflexivity|exact Hf].
           ++ right. left. split; [reflexivity|]. split; [exact Hp|].
              rewrite E. exact Hr.
           ++ discriminate Hx.
      * destruct l as [x|a c].
        -- injection H as <- <-. left. exists [false].
           split; [discriminate|]. split; [exact E|reflexivity].
        -- apply IHl in H as [(path & Hne & Hp & Hf)|[(-> & Hp & Hr)|(_ & _ & x & Hx)]].
           ++ left. exists (false :: path). split; [discriminate|].
              split; [rewrite E, Hp; reflexivity|exact Hf].
           ++ right. left. split; [reflexivity|]. split; [exact Hp|].
              rewrite E. exact Hr.
           ++ discriminate Hx.
    + apply readbit_Raise in E as [_ Hp]. injection H as <- <-.
      right. left. rewrite Hp. split; [reflexivity|]. split; reflexivity.
    + destruct (readbit_fuel rd E).
Qed.

Lemma table_from_keeps (t : tree) :
  ∀ (pre : list bool) (table : gmap Z (list bool)) (s : Z),
    is_Some (table !! s) → is_Some (table_from t pre table !! s).
Proof.
  induction t as [[v|]|l IHl r IHr]; intros pre table s H; cbn [table_from].
  - destruct (decide (v = s)) as [->|Hne].
    + rewrite lookup_insert_eq. eauto.
    + rewrite lookup_insert_ne by exact Hne. exact H.
  - exact H.
  - apply IHr, IHl, H.
Qed.

Lemma table_from_complete (t : tree) :
  ∀ (pre : list bool) (table : gmap Z (list bool)) (s : Z) (suf : list bool),
    follow t suf = Some (TreeLeaf (Some s)) →
    is_Some (table_from t pre table !! s).
Proof.
  induction t as [[v|]|l IHl r IHr]; intros pre table s suf H; cbn [table_from].
  - destruct suf; [|discriminate H]. cbn [follow] in H.
    assert (v = s) as -> by congruence.
    rewrite lookup_insert_eq. eauto.
  - destruct suf; discriminate H.
  - destruct suf as [|b suf]; [discriminate H|]. cbn [follow] in H. destruct b.
    + apply (IHr _ _ _ suf H).
    + apply table_from_keeps. apply (IHl _ _ _ suf H).
Qed.

(** The symbols with a code are the symbols at the leaves. *)
Lemma symbol_coded (t : tree) (s : Z) :
  is_Some (make_encoding_table t !! s)
  ↔ ∃ path, follow t path = Some (TreeLeaf (Some s)).
Proof.
  split.
  - intros [code H]. exists code. apply make_encoding_table_follow, H.
  - intros [path H]. apply (table_from_complete t [] ∅ s path H).
Qed.

Lemma follow_well_formed (path : list bool) :
  ∀ (t : tree) (v : Z),
    well_formed t → follow t path = Some (TreeLeaf (Some v)) → 0 <= v < 256.
Proof.
  induction path as [|b path IH]; intros t v Hwf H.
  - destruct t as [x|l r]; cbn [follow] in H; [|discriminate H].
    assert (x = Some v) as -> by congruence. exact Hwf.
  - destruct t as [x|l r]; [discriminate H|]. destruct Hwf as [Hl Hr].
    cbn [follow] in H. destruct b; [apply (IH r v Hr H)|apply (IH l v Hl H)].
Qed.

(** What the loop of [decompress] writes: eight bits for each symbol it
    decoded, each of them the symbol of a leaf, and no more symbols than
    there were bits to read. *)
Lemma decompress_loop_written (fuel : nat) (t : tree) :
  ∀ (rd : BitReader) (Target W : BitWriter),
    decompress_loop fuel t rd Target = Ok W →
    ∃ vs, written W = written Target ++ concat (map (λ v, value_bits v 8) vs)
          ∧ Forall (λ v, ∃ path, follow t path = Some (TreeLeaf (Some v))) vs
          ∧ (length vs <= length (pending rd))%nat
          ∧ (writer_ok Target → writer_ok W).
Proof.
  induction fuel as [|fuel IH]; intros rd Target W H; [discriminate H|].
  cbn [decompress_loop] in H.
  pose proof (decode_byte_consumes t rd) as [_ Hc].
  destruct (decode_byte t rd) as [[v|] rd'] eqn:E; cbn [fst snd] in Hc.
  - apply IH in H as (vs & HW & HF & HL & HO). exists (v :: vs).
    rewrite HW, writebits_written, <- app_assoc. split; [reflexivity|].
    split; [|split].
    + apply Forall_cons. split; [|exact HF].
      apply decode_byte_path in E as [(path & _ & _ & Hf)|[(Hn & _)|(Hn & _)]];
        [eauto|discriminate Hn|discriminate Hn].
    + assert (is_Some (Some v)) as Hs by eauto. specialize (Hc Hs).
      cbn [length]. lia.
    + intros Hok. apply HO, writebits_ok, Hok.
  - injection H as <-. exists []. cbn [map concat length]. rewrite app_nil_r.
    split; [reflexivity|]. split; [constructor|]. split; [lia|tauto].
Qed.

Lemma symbol_byte_bits (v : Z) : byte_bits (symbol_byte v) = value_bits v 8.
Proof. apply byte_bits_byte, value_bits_length. Qed.

Lemma symbol_byte_value (v : Z) : 0 <= v < 256 → byte_value (symbol_byte v) = v.
Proof.
  intros Hv. rewrite <- bits_value_byte_bits, symbol_byte_bits.
  apply bits_value_byte, Hv.
Qed.

Lemma symbol_bytes_bits (vs : list Z) :
  concat (map (λ v, value_bits v 8) vs) = stream_bits (map symbol_byte vs).
Proof.
  induction vs as [|v vs IH]; [reflexivity|].
  cbn [map concat]. rewrite stream_bits_cons, symbol_byte_bits, IH. reflexivity.
Qed.

(** What [decompress] returns: one byte for each symbol decoded, each the
    symbol of a leaf of the tree read, and no more bytes than there were
    bits after the tree. *)
Lemma decompress_output (compressed out : list byte) (t : tree) (rd : BitReader) :
  read_tree (new_reader compressed) = Ok (t, rd) →
  decompress compressed = Ok out →
  ∃ vs, out = map symbol_byte vs
        ∧ Forall (λ v, ∃ path, follow t path = Some (TreeLeaf (Some v))) vs
        ∧ (length vs <= length (pending rd))%nat.
Proof.
  intros E H. unfold decompress, decompress_run in H. rewrite E in H.
  outcome_simpl in H.
  destruct (decompress_loop _ t rd new_writer) as [W| |] eqn:EL;
    outcome_simpl in H; try discriminate H.
  injection H as <-.
  apply decompress_loop_written in EL as (vs & HW & HF & HL & HO).
  exists vs. split; [|split; assumption].
  apply stream_bits_inj. rewrite flush_output by (apply HO, new_writer_ok).
  rewrite HW. cbn [written new_writer w_output w_bits stream_bits map concat app].
  rewrite symbol_bytes_bits, stream_bits_length, padding_aligned, app_nil_r.
  reflexivity.
Qed.

(** [decompress] on the description of a tree with a branch at the root,
    any paths to symbol leaves, and a tail on which [decode_byte] yields no
    value. *)
Lemma decompress_paths_then_stop (l r : tree) (input compressed : list byte)
    (paths : list (list bool)) (tail : list bool) :
  well_formed (TreeBranch l r) →
  Forall2 (λ b path, follow (TreeBranch l r) path = Some (TreeLeaf (Some (byte_value b))))
    input paths →
  stream_bits compressed = tree_bits (TreeBranch l r) ++ concat paths ++ tail →
  (∀ rd, pending rd = tail → fst (decode_byte (TreeBranch l r) rd) = None) →
  decompress compressed = Ok input.
Proof.
  intros Hwf Hpaths Hs Hstop. unfold decompress, decompress_run.
  destruct (read_tree_description (TreeBranch l r) (new_reader compressed)
              (concat paths ++ tail) Hwf Hs) as (rd1 & E1 & Hp1).
  rewrite E1. outcome_simpl.
  destruct (decompress_loop_paths l r input paths Hpaths
              (S (length (pending rd1))) rd1 tail new_writer Hp1)
    as (rd2 & fuel2 & Hp2 & Hf2 & EL); [lia|].
  rewrite EL. destruct fuel2 as [|fuel2]; [lia|].
  rewrite (decompress_loop_stop fuel2 _ rd2 _ (Hstop rd2 Hp2)). outcome_simpl.
  f_equal. apply stream_bits_inj.
  destruct (write_bytes_written input new_writer) as [HW HO].
  rewrite flush_output by (apply HO, new_writer_ok).
  rewrite HW. cbn [written new_writer w_output w_bits stream_bits map concat app].
  fold (stream_bits input).
  rewrite stream_bits_length, padding_aligned, app_nil_r. reflexivity.
Qed.

(** Bytes that are all symbols of leaves have a payload. *)
Lemma payload_alphabet (t : tree) (input : list byte) :
  Forall (λ b, ∃ path, follow t path = Some (TreeLeaf (Some (byte_value b)))) input
  ↔ ∃ bits, payload (make_encoding_table t) input = Some bits.
Proof.
  split.
  - intros HF. destruct (payload (make_encoding_table t) input) as [bits|] eqn:E;
      [eauto|].
    apply payload_None in E as (b & Hb & Hn).
    rewrite Forall_forall in HF. apply HF, symbol_coded in Hb as [code Hc].
    congruence.
  - intros [bits E]. apply Forall_forall. intros b Hb. apply symbol_coded.
    destruct (make_encoding_table t !! byte_value b) as [code|] eqn:Ec; [eauto|].
    assert (payload (make_encoding_table t) input = None) as Hn
      by (apply payload_None; eauto).
    congruence.
Qed.

(** The encode loop stops at the first byte without a code. *)
Lemma compress_loop_first_missing (encode : gmap Z (list bool)) (pre : list byte) :
  ∀ (fuel : nat) (rd : BitReader) (Target : BitWriter) (b : byte) (post : list byte),
    Forall (λ a, is_Some (encode !! byte_value a)) pre →
    encode !! byte_value b = None →
    pending rd = stream_bits (pre ++ b :: post) →
    (length (pre ++ b :: post) < fuel)%nat →
    compress_loop fuel encode rd Target = Raise (KeyError (byte_value b)).
Proof.
  induction pre as [|a pre IH]; intros fuel rd Target b post HF Hn Hp Hf;
    (destruct fuel as [|fuel]; [lia|]); cbn [compress_loop].
  - cbn [app] in Hp. destruct (readbits_byte rd b post Hp) as (rd1 & E1 & _).
    rewrite E1, Hn. reflexivity.
  - cbn [app] in Hp. destruct (readbits_byte rd a _ Hp) as (rd1 & E1 & Hp1).
    rewrite E1. apply Forall_cons in HF as [[code Hc] HF]. rewrite Hc.
    apply (IH fuel rd1 _ b post);
      [exact HF|exact Hn|exact Hp1|cbn [app length] in Hf; lia].
Qed.

End DecodePaths.

Section Further.

Lemma pending_reader_of_bits (bits : list bool) :
  pending (reader_of_bits bits) = bits.
Proof. unfold pending, reader_of_bits. cbn. apply app_nil_r. Qed.

(** X1: with any number of frames left, [decompress] raises exactly what
    its call of [read_tree] raises, [EOFError] or [RecursionError]; and
    once [read_tree] has returned a tree, [decompress] returns: the decode
    loop ends on every stream and raises nothing. *)
Theorem decompress_outcome (limit : nat) (compressed : list byte) :
  (∃ e, (e = EOFError ∨ e = RecursionError)
        ∧ read_tree_frames limit (new_reader compressed) = Raise e
        ∧ decompress_frames limit compressed = Raise e)
  ∨ (∃ t rd out, read_tree_frames limit (new_reader compressed) = Ok (t, rd)
                 ∧ decompress_frames limit compressed = Ok out).
Proof.
  destruct (read_tree_frames limit (new_reader compressed)) as [[t rd]|e|] eqn:E.
  - right.
    destruct (decompress_frames_returns limit compressed t rd E) as (W & _ & H & _).
    exists t, rd, (w_output W). split; [reflexivity|exact H].
  - left. exists e. split; [exact (read_tree_frames_Raise _ _ _ E)|].
    split; [reflexivity|apply decompress_frames_Raise, E].
  - destruct (read_tree_frames_fuel _ _ E).
Qed.

(** X2: for a well-formed tree with a branch at the root and the end marker
    at its leftmost leaf, and an input whose bytes are all symbols of
    leaves, [compress] returns and [decompress] gives the input back. *)
Theorem compress_decompress_roundtrip (l r : tree) (input : list byte) :
  well_formed (TreeBranch l r) →
  leftmost (TreeBranch l r) = None →
  Forall (λ b, ∃ path, follow (TreeBranch l r) path
                       = Some (TreeLeaf (Some (byte_value b)))) input →
  ∃ compressed, compress (TreeBranch l r) input = Ok compressed
                ∧ decompress compressed = Ok input.
Proof.
  intros Hwf Hl HF. apply payload_alphabet in HF as [bits Hpay].
  apply (roundtrip_end_marker_leftmost l r input bits Hwf Hl Hpay).
Qed.

Lemma compress_decompress_roundtrip_witness :
  ∃ compressed, compress tree_eof_sym [x41; x41] = Ok compressed
                ∧ decompress compressed = Ok [x41; x41].
Proof.
  apply (compress_decompress_roundtrip (TreeLeaf None) (TreeLeaf (Some 65))
           [x41; x41]).
  - cbn. lia.
  - reflexivity.
  - repeat (apply Forall_cons; split; [exists [true]; reflexivity|]). constructor.
Defined.

(** X3: [decompress] stops at the end marker: on the description of a
    well-formed tree, paths to symbol leaves, the path to an end-marker leaf
    and then any bits at all, it returns the bytes of those symbols. *)
Theorem decompress_stops_at_end_marker (l r : tree) (input compressed : list byte)
    (paths : list (list bool)) (eof junk : list bool) :
  well_formed (TreeBranch l r) →
  Forall2 (λ b path, follow (TreeBranch l r) path
                     = Some (TreeLeaf (Some (byte_value b)))) input paths →
  follow (TreeBranch l r) eof = Some (TreeLeaf None) →
  stream_bits compressed
  = tree_bits (TreeBranch l r) ++ concat paths ++ eof ++ junk →
  decompress compressed = Ok input.
Proof.
  intros Hwf Hpaths Heof Hs.
  apply (decompress_paths_then_stop l r input compressed paths (eof ++ junk)
           Hwf Hpaths Hs).
  intros rd Hp.
  assert (Hne : eof ≠ []) by (intros ->; discriminate Heof).
  destruct (decode_byte_follow eof _ _ rd junk Heof Hne Hp) as (rd' & E & _).
  rewrite E. reflexivity.
Qed.

Lemma decompress_stops_at_end_marker_witness :
  decompress [xd4; x11; x42; x8f] = Ok [x42; x41].
Proof.
  apply (decompress_stops_at_end_marker
           (TreeBranch (TreeLeaf (Some 65)) (TreeLeaf None)) (TreeLeaf (Some 66))
           [x42; x41] [xd4; x11; x42; x8f] [[true]; [false; false]]
           [false; true] [true; true; true]).
  - cbn. lia.
  - repeat constructor.
  - reflexivity.
  - vm_compute. reflexivity.
Defined.

(** X4: a payload cut inside a code: on the description of a well-formed
    tree, paths to symbol leaves and a tail that ends before a leaf is
    reached, [decompress] returns the bytes of those symbols, without an
    exception. *)
Theorem decompress_cut_payload (l r : tree) (input compressed : list byte)
    (paths : list (list bool)) (tail : list bool) :
  well_formed (TreeBranch l r) →
  Forall2 (λ b path, follow (TreeBranch l r) path
                     = Some (TreeLeaf (Some (byte_value b)))) input paths →
  runs_out (TreeBranch l r) tail = true →
  stream_bits compressed = tree_bits (TreeBranch l r) ++ concat paths ++ tail →
  decompress compressed = Ok input.
Proof.
  intros Hwf Hpaths Hr Hs.
  apply (decompress_paths_then_stop l r input compressed paths tail Hwf Hpaths Hs).
  intros rd Hp. apply decode_byte_runs_out. rewrite Hp. exact Hr.
Qed.

Lemma decompress_cut_payload_witness :
  decompress [xd4; x11; x42; xfe] = Ok [x42; x42; x42; x42; x42; x42; x42].
Proof.
  apply (decompress_cut_payload
           (TreeBranch (TreeLeaf (Some 65)) (TreeLeaf None)) (TreeLeaf (Some 66))
           [x42; x42; x42; x42; x42; x42; x42] [xd4; x11; x42; xfe]
           [[true]; [true]; [true]; [true]; [true]; [true]; [true]] [false]).
  - cbn. lia.
  - repeat constructor.
  - reflexivity.
  - vm_compute. reflexivity.
Defined.

(** X5: what [write_tree] writes determines the tree and where its
    description ends: if two well-formed trees written from the same writer
    state give streams that agree once some bits are appended to each, the
    trees are equal and so are the appended bits. *)
Theorem write_tree_injective (t t' : tree) (w : BitWriter) (x y : list bool) :
  well_formed t → well_formed t' →
  written (write_tree t w) ++ x = written (write_tree t' w) ++ y →
  t = t' ∧ x = y.
Proof.
  intros Hwf Hwf' H. rewrite !write_tree_written, <- !app_assoc in H.
  apply app_inv_head in H.
  destruct (read_tree_description t (reader_of_bits (tree_bits t ++ x)) x Hwf)
    as (r1 & E1 & Hp1); [apply pending_reader_of_bits|].
  destruct (read_tree_description t' (reader_of_bits (tree_bits t ++ x)) y Hwf')
    as (r2 & E2 & Hp2); [rewrite pending_reader_of_bits; exact H|].
  rewrite E1 in E2. injection E2 as -> ->.
  split; [reflexivity|]. rewrite <- Hp1, <- Hp2. reflexivity.
Qed.

Lemma write_tree_injective_witness :
  tree_sym_eof = tree_sym_eof ∧ [true] = [true].
Proof.
  apply (write_tree_injective tree_sym_eof tree_sym_eof new_writer [true] [true]).
  - cbn. lia.
  - cbn. lia.
  - reflexivity.
Defined.



(** X7: what a call of [decode_byte] on a tree with a branch at the root has
    done when it returns: either the bits it consumed are the path to a
    leaf and the result is the value of that leaf, or the result is [None],
    the reader is empty and the bits ended before a leaf was reached. *)
Theorem decode_byte_result
    (l r : tree) (rd rd' : BitReader) (v : option Z) :
  decode_byte (TreeBranch l r) rd = (v, rd') →
  (∃ path, path ≠ [] ∧ pending rd = path ++ pending rd'
           ∧ follow (TreeBranch l r) path = Some (TreeLeaf v))
  ∨ (v = None ∧ pending rd' = []
     ∧ runs_out (TreeBranch l r) (pending rd) = true).
Proof.
  intros H. apply decode_byte_path in H as [H|[H|(_ & _ & x & Hx)]].
  - left. exact H.
  - right. exact H.
  - discriminate Hx.
Qed.

Lemma decode_byte_result_witness :
  (∃ path, path ≠ [] ∧ pending (reader_of_bits [true; false])
                       = path ++ pending (reader_of_bits [false])
           ∧ follow tree_deep path = Some (TreeLeaf (Some 66)))
  ∨ (Some 66 = None ∧ pending (reader_of_bits [false]) = []
     ∧ runs_out tree_deep (pending (reader_of_bits [true; false])) = true).
Proof.
  apply (decode_byte_result
           (TreeBranch (TreeLeaf (Some 65)) (TreeLeaf None)) (TreeLeaf (Some 66))
           (reader_of_bits [true; false]) (reader_of_bits [false]) (Some 66)).
  reflexivity.
Defined.

(** X8: when the pending bits start with the path to a leaf of a tree with
    a branch at the root, [decode_byte] returns the value of that leaf and
    leaves the reader right after the path. *)
Theorem decode_byte_reads_path
    (l r : tree) (path rest : list bool) (v : option Z) (rd : BitReader) :
  follow (TreeBranch l r) path = Some (TreeLeaf v) →
  pending rd = path ++ rest →
  ∃ rd', decode_byte (TreeBranch l r) rd = (v, rd') ∧ pending rd' = rest.
Proof.
  intros Hf Hp.
  assert (Hne : path ≠ []) by (intros ->; discriminate Hf).
  apply (decode_byte_follow path _ v rd rest Hf Hne Hp).
Qed.

Lemma decode_byte_reads_path_witness :
  ∃ rd', decode_byte tree_deep (reader_of_bits [false; false; true])
         = (Some 65, rd')
         ∧ pending rd' = [true].
Proof.
  apply (decode_byte_reads_path
           (TreeBranch (TreeLeaf (Some 65)) (TreeLeaf None)) (TreeLeaf (Some 66))
           [false; false] [true] (Some 65) (reader_of_bits [false; false; true])).
  - reflexivity.
  - reflexivity.
Defined.

(** X9: the code [compress] looks up for a symbol in the encoding table of
    a tree with a branch at the root is decoded by [decode_byte] to that
    symbol, and nothing past the code is read. *)
Theorem decode_byte_table_code
    (l r : tree) (s : Z) (code rest : list bool) (rd : BitReader) :
  make_encoding_table (TreeBranch l r) !! s = Some code →
  pending rd = code ++ rest →
  ∃ rd', decode_byte (TreeBranch l r) rd = (Some s, rd') ∧ pending rd' = rest.
Proof.
  intros Hc Hp. apply make_encoding_table_follow in Hc.
  assert (Hne : code ≠ []) by (intros ->; discriminate Hc).
  apply (decode_byte_follow code _ (Some s) rd rest Hc Hne Hp).
Qed.

Lemma decode_byte_table_code_witness :
  ∃ rd', decode_byte tree_deep (reader_of_bits [true; false]) = (Some 66, rd')
         ∧ pending rd' = [false].
Proof.
  apply (decode_byte_table_code
           (TreeBranch (TreeLeaf (Some 65)) (TreeLeaf None)) (TreeLeaf (Some 66))
           66 [true] [false] (reader_of_bits [true; false])).
  - vm_compute. reflexivity.
  - reflexivity.
Defined.

End Further.

Section FurtherStreams.

(** X10: [compress] returns exactly when every byte of the input is the
    symbol of some leaf of the tree. *)
Theorem compress_returns_iff (t : tree) (uncompressed : list byte) :
  (∃ out, compress t uncompressed = Ok out)
  ↔ Forall (λ b, ∃ path, follow t path = Some (TreeLeaf (Some (byte_value b))))
      uncompressed.
Proof.
  split.
  - intros [out H]. apply payload_alphabet.
    destruct (payload (make_encoding_table t) uncompressed) as [bits|] eqn:E;
      [eauto|].
    destruct (compress_loop_missing (make_encoding_table t) uncompressed
                (S (length uncompressed)) (new_reader uncompressed)
                (write_tree t new_writer))
      as (b & _ & _ & EL); [reflexivity|lia|exact E|].
    unfold compress, compress_run in H. rewrite EL in H. discriminate H.
  - intros HF. apply payload_alphabet in HF as [bits Hpay].
    destruct (compress_run_layout t uncompressed bits Hpay) as (W & _ & H & _).
    eauto.
Qed.

(** X11: [compress] raises [KeyError] for the first byte that has no entry
    in the encoding table, whatever comes after it. *)
Theorem compress_first_unencodable
    (t : tree) (pre post : list byte) (b : byte) :
  Forall (λ a, is_Some (make_encoding_table t !! byte_value a)) pre →
  make_encoding_table t !! byte_value b = None →
  compress t (pre ++ b :: post) = Raise (KeyError (byte_value b)).
Proof.
  intros HF Hn. unfold compress, compress_run.
  rewrite (compress_loop_first_missing (make_encoding_table t) pre
             (S (length (pre ++ b :: post))) (new_reader (pre ++ b :: post))
             (write_tree t new_writer) b post HF Hn); [reflexivity|reflexivity|lia].
Qed.

Lemma compress_first_unencodable_witness :
  compress tree_eof_sym ([x41] ++ x42 :: [x43]) = Raise (KeyError (byte_value x42)).
Proof.
  apply (compress_first_unencodable tree_eof_sym [x41] [x43] x42).
  - apply Forall_cons. split; [exists [true]; vm_compute; reflexivity|constructor].
  - vm_compute. reflexivity.
Defined.

(** X12: a stream whose tree description is a single leaf decompresses to
    the empty output, whatever follows the description: with a leaf at the
    root [decode_byte] yields no value at the first call. *)
Theorem decompress_single_leaf
    (value : option Z) (compressed : list byte) (rest : list bool) :
  well_formed (TreeLeaf value) →
  stream_bits compressed = tree_bits (TreeLeaf value) ++ rest →
  decompress compressed = Ok [].
Proof.
  intros Hwf Hs.
  destruct (read_tree_description (TreeLeaf value) (new_reader compressed) rest
              Hwf Hs) as (rd & E & _).
  unfold decompress, decompress_run. rewrite E. reflexivity.
Qed.

Lemma decompress_single_leaf_witness : decompress [x50; x7f] = Ok [].
Proof.
  apply (decompress_single_leaf (Some 65) [x50; x7f]
           [true; true; true; true; true; true]).
  - cbn. lia.
  - vm_compute. reflexivity.
Defined.

(** X13: every byte [decompress] returns is the symbol of a leaf of the
    tree it read. *)
Theorem decompress_outputs_leaf_symbols
    (compressed out : list byte) (t : tree) (rd : BitReader) :
  read_tree (new_reader compressed) = Ok (t, rd) →
  decompress compressed = Ok out →
  Forall (λ b, ∃ path, follow t path = Some (TreeLeaf (Some (byte_value b)))) out.
Proof.
  intros E H.
  destruct (decompress_output compressed out t rd E H) as (vs & -> & HF & _).
  apply read_tree_fuel_sound in E as [Hwf _].
  apply Forall_map. eapply Forall_impl; [exact HF|].
  intros v [path Hf]. cbn beta. exists path.
  rewrite (symbol_byte_value v (follow_well_formed path t v Hwf Hf)). exact Hf.
Qed.

Lemma decompress_outputs_leaf_symbols_witness :
  Forall (λ b, ∃ path, follow tree_sym_eof path
                       = Some (TreeLeaf (Some (byte_value b))))
    [x41; x41; x41].
Proof.
  apply (decompress_outputs_leaf_symbols [xa8; x20] [x41; x41; x41] tree_sym_eof
           (reader_of_bits [false; false; false])).
  - vm_compute. reflexivity.
  - vm_compute. reflexivity.
Defined.

(** X14: [decompress] returns at most one byte for each bit that follows
    the tree description, so fewer than eight bytes for each byte of the
    compressed stream. *)
Theorem decompress_output_bound
    (compressed out : list byte) (t : tree) (rd : BitReader) :
  read_tree (new_reader compressed) = Ok (t, rd) →
  decompress compressed = Ok out →
  (length out <= length (pending rd))%nat
  ∧ (length out < 8 * length compressed)%nat.
Proof.
  intros E H.
  destruct (decompress_output compressed out t rd E H) as (vs & -> & _ & HL).
  rewrite length_map.
  apply read_tree_fuel_sound in E as [_ Hp].
  apply (f_equal (@length bool)) in Hp.
  rewrite length_app in Hp.
  change (pending (new_reader compressed)) with ([] ++ stream_bits compressed) in Hp.
  cbn [app] in Hp. rewrite stream_bits_length in Hp.
  pose proof (height_tree_bits t). split; lia.
Qed.

Lemma decompress_output_bound_witness :
  (length [x41; x41; x41] <= length (pending (reader_of_bits [false; false; false])))%nat
  ∧ (length [x41; x41; x41] < 8 * length [xa8; x20])%nat.
Proof.
  apply (decompress_output_bound [xa8; x20] [x41; x41; x41] tree_sym_eof
           (reader_of_bits [false; false; false])).
  - vm_compute. reflexivity.
  - vm_compute. reflexivity.
Defined.

(** X16: the description [write_tree] writes for a tree with [n] leaves,
    [k] of them with a symbol, is [3 n - 1 + 8 k] bits long. *)
Theorem write_tree_length (t : tree) (w : BitWriter) :
  (length (written (write_tree t w)) + 1
   = length (written w) + 3 * leaves t + 8 * symbol_leaves t)%nat.
Proof.
  rewrite write_tree_written, length_app.
  assert (H : (length (tree_bits t) + 1 = 3 * leaves t + 8 * symbol_leaves t)%nat).
  { induction t as [[s|]|l IHl r IHr]; cbn [tree_bits leaves symbol_leaves length].
    - rewrite value_bits_length. lia.
    - lia.
    - rewrite length_app. lia. }
  lia.
Qed.

(** X18: the tree can be read back from the flushed stream whatever bits
    were written after it: after [write_tree], more bits and [flush],
    [read_tree] on the bytes of the stream returns the tree and leaves the
    reader on those bits and the padding. *)
Theorem read_tree_after_flush (t : tree) (more : list bool) :
  well_formed t →
  ∃ r', read_tree
          (new_reader (w_output (flush (write_code more (write_tree t new_writer)))))
        = Ok (t, r')
        ∧ pending r' = more ++ padding (length (tree_bits t ++ more)).
Proof.
  intros Hwf. apply read_tree_description; [exact Hwf|].
  change (pending (new_reader ?c)) with ([] ++ stream_bits c). cbn [app].
  rewrite flush_output
    by (apply write_code_ok, write_tree_ok, new_writer_ok).
  rewrite write_code_written, write_tree_written.
  cbn [written new_writer w_output w_bits stream_bits map concat app].
  rewrite <- app_assoc. reflexivity.
Qed.

Lemma read_tree_after_flush_witness :
  ∃ r', read_tree
          (new_reader
             (w_output (flush (write_code [true] (write_tree tree_sym_eof new_writer)))))
        = Ok (tree_sym_eof, r')
        ∧ pending r' = [true] ++ padding (length (tree_bits tree_sym_eof ++ [true])).
Proof.
  apply (read_tree_after_flush tree_sym_eof [true]).
  cbn. lia.
Defined.

End FurtherStreams.

Section FurtherRoundTrip.

(** X15: when the terminator bits [0 0] start with the code of a symbol
    (a symbol leaf is the left child of the root, or the left child of
    that child), [compress] followed by [decompress] returns more bytes
    than the input had: the terminator is decoded as a symbol. *)
Theorem roundtrip_grows_when_zeros_code_symbol
    (l r : tree) (input : list byte) (path : list bool) (s : Z) :
  well_formed (TreeBranch l r) →
  path = [false] ∨ path = [false; false] →
  follow (TreeBranch l r) path = Some (TreeLeaf (Some s)) →
  Forall (λ b, ∃ p, follow (TreeBranch l r) p
                    = Some (TreeLeaf (Some (byte_value b)))) input →
  ∃ compressed out,
    compress (TreeBranch l r) input = Ok compressed
    ∧ decompress compressed = Ok out
    ∧ (length input < length out)%nat.
Proof.
  intros Hwf Hpath Hf HF. apply payload_alphabet in HF as [bits Hpay].
  destruct (compress_run_layout _ _ _ Hpay) as (W & _ & EC & HS & _).
  remember (padding (length (tree_bits (TreeBranch l r) ++ bits ++ [false; false])))
    as pad eqn:Hpad. clear Hpad.
  assert (Hr0 : ∃ rest0, [false; false] ++ pad = path ++ rest0)
    by (destruct Hpath as [->| ->]; eexists; reflexivity).
  destruct Hr0 as [rest0 Hr0].
  assert (Hne : path ≠ []) by (destruct Hpath as [->| ->]; discriminate).
  assert (Hs1 : pending (new_reader (w_output W))
                = tree_bits (TreeBranch l r) ++ bits ++ [false; false] ++ pad).
  { change (pending (new_reader (w_output W))) with ([] ++ stream_bits (w_output W)).
    cbn [app]. rewrite HS, <- !app_assoc. reflexivity. }
  destruct (read_tree_description _ _ _ Hwf Hs1) as (rd1 & E1 & Hp1).
  destruct (decompress_loop_payload (make_encoding_table (TreeBranch l r)) l r input
              (make_encoding_table_follow (TreeBranch l r))
              bits (S (length (pending rd1))) rd1 ([false; false] ++ pad)
              new_writer Hpay Hp1)
    as (rd2 & fuel2 & Hp2 & Hf2 & EL); [lia|].
  rewrite Hr0 in Hp2, Hf2.
  destruct (decode_byte_follow path _ _ rd2 rest0 Hf Hne Hp2) as (rd3 & Ed & Hp3).
  destruct fuel2 as [|fuel2]; [lia|].
  destruct (decompress_loop_total fuel2 (TreeBranch l r) rd3
              (writebits s 8 (write_bytes input new_writer)))
    as (W2 & EW2 & _ & _).
  { rewrite Hp3. rewrite length_app in Hf2. destruct path; [congruence|].
    cbn [length] in Hf2. lia. }
  pose proof EW2 as HW2.
  apply decompress_loop_written in HW2 as (vs & HW2 & _ & _ & HO2).
  destruct (write_bytes_written input new_writer) as [HWB HOB].
  exists (w_output W), (w_output (flush W2)).
  split; [exact EC|]. split.
  - unfold decompress, decompress_run. rewrite E1. outcome_simpl.
    rewrite EL. cbn [decompress_loop]. rewrite Ed, EW2. reflexivity.
  - assert (HL : stream_bits (w_output (flush W2))
                 = written W2 ++ padding (length (written W2)))
      by (apply flush_output, HO2, writebits_ok, HOB, new_writer_ok).
    apply (f_equal (@length bool)) in HL.
    rewrite stream_bits_length, length_app, HW2, length_app, writebits_written,
      length_app, HWB, length_app, value_bits_length, stream_bits_length in HL.
    cbn [written new_writer w_output w_bits stream_bits map concat app length] in HL.
    lia.
Qed.

Lemma roundtrip_grows_when_zeros_code_symbol_witness :
  ∃ compressed out,
    compress tree_sym_eof [x41] = Ok compressed
    ∧ decompress compressed = Ok out
    ∧ (length [x41] < length out)%nat.
Proof.
  apply (roundtrip_grows_when_zeros_code_symbol
           (TreeLeaf (Some 65)) (TreeLeaf None) [x41] [false] 65).
  - cbn. lia.
  - left. reflexivity.
  - reflexivity.
  - apply Forall_cons. split; [exists [false]; reflexivity|constructor].
Defined.

(** X17: with a tree that is a single symbol leaf every byte has the empty
    code, so [compress] writes the same stream whatever the number of input
    bytes. *)
Theorem compress_single_leaf_ignores_input (s : Z) (input : list byte) :
  Forall (λ b, byte_value b = s) input →
  compress (TreeLeaf (Some s)) input = compress (TreeLeaf (Some s)) [].
Proof.
  intros HF.
  assert (Hpay : payload (make_encoding_table (TreeLeaf (Some s))) input = Some []).
  { induction HF as [|b input Hb _ IH]; [reflexivity|].
    cbn [payload]. rewrite Hb, IH. unfold make_encoding_table. cbn [table_from].
    rewrite lookup_insert_eq. reflexivity. }
  destruct (compress_run_layout _ _ _ Hpay) as (W1 & _ & E1 & H1 & _).
  destruct (compress_run_layout (TreeLeaf (Some s)) [] [] eq_refl)
    as (W2 & _ & E2 & H2 & _).
  rewrite E1, E2. f_equal. apply stream_bits_inj. rewrite H1, H2. reflexivity.
Qed.

Lemma compress_single_leaf_ignores_input_witness :
  compress (TreeLeaf (Some 65)) [x41; x41; x41] = compress (TreeLeaf (Some 65)) [].
Proof.
  apply (compress_single_leaf_ignores_input 65 [x41; x41; x41]).
  repeat (apply Forall_cons; split; [reflexivity|]). constructor.
Defined.

End FurtherRoundTrip.

Section FurtherTerminator.

Lemma follow_zeros (n : nat) :
  ∀ (t : tree) (v : option Z),
    follow t (repeat false n) = Some (TreeLeaf v) → leftmost t = v.
Proof.
  induction n as [|n IH]; intros t v H; destruct t as [x|l r];
    cbn [repeat follow leftmost] in *.
  - congruence.
  - discriminate H.
  - discriminate H.
  - apply IH, H.
Qed.

Lemma leftmost_well_formed (t : tree) (v : Z) :
  well_formed t → leftmost t = Some v → 0 <= v < 256.
Proof.
  induction t as [[s|]|l IHl r _]; cbn [well_formed leftmost].
  - intros Hs [= ->]. exact Hs.
  - discriminate.
  - intros [Hl _]. apply IHl, Hl.
Qed.

(** On 0 bits only, every symbol the loop of [decompress] decodes is the
    one at the leftmost leaf. *)
Lemma decompress_loop_zeros (fuel : nat) (t : tree) :
  ∀ (rd : BitReader) (Target W : BitWriter) (k : nat),
    pending rd = repeat false k →
    decompress_loop fuel t rd Target = Ok W →
    ∃ vs, written W = written Target ++ concat (map (λ v, value_bits v 8) vs)
          ∧ Forall (λ v, leftmost t = Some v) vs
          ∧ (length vs <= k)%nat
          ∧ (writer_ok Target → writer_ok W).
Proof.
  induction fuel as [|fuel IH]; intros rd Target W k Hp H; [discriminate H|].
  cbn [decompress_loop] in H.
  destruct (decode_byte t rd) as [[v|] rd'] eqn:E.
  - apply decode_byte_path in E as [(path & Hne & Hpp & Hf)|[(Hn & _)|(Hn & _)]];
      [|discriminate Hn|discriminate Hn].
    rewrite Hp in Hpp. pose proof (repeat_eq_app _ _ _ _ Hpp) as [Hp1 Hp2].
    apply (f_equal (@length bool)) in Hpp.
    rewrite repeat_length, length_app in Hpp.
    rewrite <- Hp1 in Hf. apply follow_zeros in Hf.
    apply (IH rd' _ W (length (pending rd')) (eq_sym Hp2)) in H
      as (vs & HW & HF & HL & HO).
    exists (v :: vs). rewrite HW, writebits_written, <- app_assoc.
    split; [reflexivity|]. split; [apply Forall_cons; split; assumption|].
    split.
    + destruct path; [congruence|]. cbn [length] in *. lia.
    + intros Hok. apply HO, writebits_ok, Hok.
  - injection H as <-. exists []. cbn [map concat length]. rewrite app_nil_r.
    split; [reflexivity|]. split; [constructor|]. split; [lia|tauto].
Qed.

(** X19: for a well-formed tree with a branch at the root and an input
    whose bytes are all symbols of leaves, [compress] followed by
    [decompress] returns the input followed by at most nine more bytes,
    each of them the symbol at the leftmost leaf: the terminator [0 0] and
    the padding decoded as symbols.  No byte of the input is lost or
    changed. *)
Theorem roundtrip_keeps_input (l r : tree) (input : list byte) :
  well_formed (TreeBranch l r) →
  Forall (λ b, ∃ p, follow (TreeBranch l r) p
                    = Some (TreeLeaf (Some (byte_value b)))) input →
  ∃ compressed extra,
    compress (TreeBranch l r) input = Ok compressed
    ∧ decompress compressed = Ok (input ++ extra)
    ∧ (length extra <= 9)%nat
    ∧ Forall (λ b, leftmost (TreeBranch l r) = Some (byte_value b)) extra.
Proof.
  intros Hwf HF. apply payload_alphabet in HF as [bits Hpay].
  destruct (compress_run_layout _ _ _ Hpay) as (W & _ & EC & HS & _).
  unfold padding in HS.
  remember (((8 - length (tree_bits (TreeBranch l r) ++ bits ++ [false; false]) mod 8)
             mod 8)%nat) as j eqn:Hj.
  assert (Hj8 : (j < 8)%nat) by (subst j; apply Nat.mod_upper_bound; lia).
  clear Hj.
  assert (Hs1 : pending (new_reader (w_output W))
                = tree_bits (TreeBranch l r) ++ bits ++ repeat false (2 + j)).
  { change (pending (new_reader (w_output W))) with ([] ++ stream_bits (w_output W)).
    cbn [app]. rewrite HS, <- !app_assoc. reflexivity. }
  destruct (read_tree_description _ _ _ Hwf Hs1) as (rd1 & E1 & Hp1).
  destruct (decompress_loop_payload (make_encoding_table (TreeBranch l r)) l r input
              (make_encoding_table_follow (TreeBranch l r))
              bits (S (length (pending rd1))) rd1 (repeat false (2 + j))
              new_writer Hpay Hp1)
    as (rd2 & fuel2 & Hp2 & Hf2 & EL); [lia|].
  destruct (decompress_loop_total fuel2 (TreeBranch l r) rd2
              (write_bytes input new_writer))
    as (W2 & EW2 & _ & _); [rewrite Hp2; exact Hf2|].
  pose proof EW2 as HW2.
  apply (decompress_loop_zeros _ _ _ _ _ _ Hp2) in HW2 as (vs & HW2 & HFv & HLv & HO2).
  destruct (write_bytes_written input new_writer) as [HWB HOB].
  exists (w_output W), (map symbol_byte vs).
  split; [exact EC|]. split; [|split].
  - unfold decompress, decompress_run. rewrite E1. outcome_simpl.
    rewrite EL, EW2. outcome_simpl. f_equal. apply stream_bits_inj.
    rewrite flush_output by (apply HO2, HOB, new_writer_ok).
    rewrite HW2, HWB, symbol_bytes_bits.
    cbn [written new_writer w_output w_bits stream_bits map concat app].
    fold (stream_bits input). fold (stream_bits (map symbol_byte vs)).
    rewrite <- stream_bits_app, stream_bits_length, padding_aligned, app_nil_r.
    reflexivity.
  - rewrite length_map. lia.
  - apply Forall_map. eapply Forall_impl; [exact HFv|].
    intros v Hv. cbn beta.
    rewrite (symbol_byte_value v (leftmost_well_formed _ v Hwf Hv)). exact Hv.
Qed.

Lemma roundtrip_keeps_input_witness :
  ∃ compressed extra,
    compress tree_sym_eof [x41] = Ok compressed
    ∧ decompress compressed = Ok ([x41] ++ extra)
    ∧ (length extra <= 9)%nat
    ∧ Forall (λ b, leftmost tree_sym_eof = Some (byte_value b)) extra.
Proof.
  apply (roundtrip_keeps_input (TreeLeaf (Some 65)) (TreeLeaf None) [x41]).
  - cbn. lia.
  - apply Forall_cons. split; [exists [false]; reflexivity|constructor].
Defined.

End FurtherTerminator.
